(** * Lyrics synchronisation core: a shallow embedding and its properties

    The development follows three source files:
    - [components/AppleMusicLyricsPlayer.tsx]: the LRC parser [parseLRC] and
      the binary search of the animation-frame [loop];
    - [components/Player/Player.tsx]: end-time inference ([onLrcFileInput]),
      the merge of a manual segment ([onWaveSelection]), the peak loop of
      [draw] and the pointer handlers of the waveform editor;
    - [components/Player/VirtualList.tsx]: the visible window of the list.

    Conventions of the embedding.
    - A JavaScript number that is an index or a count is a [Z].  Any other
      number (seconds, milliseconds before [Math.floor], audio samples) is an
      exact rational [Q]: rounding of doubles, [NaN] and the infinities are
      outside the model.
    - A JavaScript string is a [string] whose characters are the code units
      below 256; code units from 256 on are outside the model.
    - [Array.prototype.sort] is stable; since a stable sort has one possible
      result, it is embedded as a stable insertion sort. *)

From Stdlib Require Import ZArith QArith Qround Qminmax List String Ascii Bool Lia Lqa.
From Stdlib Require Import Sorting.Sorted Sorting.Permutation DecimalString.
From Equations Require Import Equations.
From Equations.Prop Require Import Logic.
Import ListNotations.

Local Open Scope string_scope.
Local Open Scope Z_scope.

(** ** JavaScript runtime pieces used by the sources *)

Module JS.

(** [Array.prototype.sort(cmp)], with [le a b] standing for [cmp(a, b) <= 0].
    An element is put in front of the first element it does not exceed, so
    equal elements keep their order. *)
Fixpoint insert {A} (le : A -> A -> bool) (x : A) (l : list A) : list A :=
  match l with
  | [] => [x]
  | y :: ys => if le x y then x :: y :: ys else y :: insert le x ys
  end.

Fixpoint sort {A} (le : A -> A -> bool) (l : list A) : list A :=
  match l with
  | [] => []
  | x :: xs => insert le x (sort le xs)
  end.

(** White space removed by [String.prototype.trim], among the code units
    below 256: TAB, LF, VT, FF, CR, SP and NBSP. *)
Definition is_space (c : ascii) : bool :=
  let n := nat_of_ascii c in
  ((9 <=? n)%nat && (n <=? 13)%nat) || (n =? 32)%nat || (n =? 160)%nat.

Fixpoint trimStart (s : string) : string :=
  match s with
  | EmptyString => EmptyString
  | String c s' => if is_space c then trimStart s' else s
  end.

Fixpoint trimEnd (s : string) : string :=
  match s with
  | EmptyString => EmptyString
  | String c s' =>
      match trimEnd s' with
      | EmptyString => if is_space c then EmptyString else String c EmptyString
      | r => String c r
      end
  end.

Definition trim (s : string) : string := trimEnd (trimStart s).

(** Truthiness of a string: [!s] holds exactly for the empty string. *)
Definition is_empty (s : string) : bool :=
  match s with EmptyString => true | _ => false end.

Definition LF : ascii := ascii_of_nat 10.
Definition CR : ascii := ascii_of_nat 13.

Definition starts_with (c : ascii) (s : string) : bool :=
  match s with
  | String d _ => Ascii.eqb c d
  | EmptyString => false
  end.

(** [s.split(/\r?\n/)]: a line feed ends a piece, and a carriage return
    directly in front of a line feed belongs to the separator. *)
Fixpoint split_lines (s : string) : list string :=
  match s with
  | EmptyString => [EmptyString]
  | String c s' =>
      let r := split_lines s' in
      if Ascii.eqb c LF then EmptyString :: r
      else if Ascii.eqb c CR && starts_with LF s' then r
      else match r with
           | l :: ls => String c l :: ls
           | [] => [String c EmptyString]
           end
  end.

(** [\d] *)
Definition is_digit (c : ascii) : bool :=
  let n := nat_of_ascii c in (48 <=? n)%nat && (n <=? 57)%nat.

Definition digit_value (c : ascii) : Z := Z.of_nat (nat_of_ascii c) - 48.

(** Value of a string of decimal digits, most significant first. *)
Fixpoint digits_value (acc : Z) (s : string) : Z :=
  match s with
  | EmptyString => acc
  | String c s' => digits_value (10 * acc + digit_value c) s'
  end.

(** [parseInt(s, 10)] on a non-empty string of digits. *)
Definition parseInt (s : string) : Z := digits_value 0 s.

(** Splits [s] at its first dot. *)
Fixpoint split_dot (s : string) : string * option string :=
  match s with
  | EmptyString => (EmptyString, None)
  | String c s' =>
      if Ascii.eqb c "." then (EmptyString, Some s')
      else let (i, f) := split_dot s' in (String c i, f)
  end.

(** [parseFloat(s)] on digits with an optional fraction [.d+]: the decimal
    value, exactly. *)
Definition parseFloat (s : string) : Q :=
  match split_dot s with
  | (i, None) => inject_Z (digits_value 0 i)
  | (i, Some f) =>
      inject_Z (digits_value 0 i)
      + Qmake (digits_value 0 f) (Pos.pow 10 (Pos.of_nat (String.length f)))
  end.

(** [a[i]] for an integer [i]: [None] stands for [undefined]. *)
Definition index {A} (l : list A) (i : Z) : option A :=
  if i <? 0 then None else nth_error l (Z.to_nat i).

(** [a[i] = v] inside the bounds of the array. *)
Fixpoint update {A} (i : nat) (v : A) (l : list A) : list A :=
  match l, i with
  | [], _ => []
  | _ :: xs, O => v :: xs
  | x :: xs, S k => x :: update k v xs
  end.

(** [a.slice(from, to)], with the relative indices of the language: a
    negative index counts from the end, and both are clipped to the array. *)
Definition clip_index (len k : Z) : Z :=
  if k <? 0 then Z.max (len + k) 0 else Z.min k len.

Definition slice {A} (l : list A) (from to : Z) : list A :=
  let len := Z.of_nat (List.length l) in
  let a := clip_index len from in
  let b := clip_index len to in
  firstn (Z.to_nat (b - a)) (skipn (Z.to_nat a) l).

(** [a < b] on numbers. *)
Definition Qltb (a b : Q) : bool := negb (Qle_bool b a).

(** [String(n)] for a number.  An integer prints as its decimal digits.
    For any other value the language prints the shortest decimal that reads
    back as the same double; rationals have no such notion, and the model
    prints the integer part followed by the reduced fractional part instead.
    Only equality of printed numbers is ever observed. *)
Definition Z_to_string (z : Z) : string :=
  NilZero.string_of_int (Z.to_int z).

Definition number_to_string (q : Q) : string :=
  let r := Qred q in
  match Qden r with
  | xH => Z_to_string (Qnum r)
  | d => Z_to_string (Qfloor r) ++ "+"
         ++ Z_to_string (Qnum r - Qfloor r * Zpos d) ++ "/" ++ Z_to_string (Zpos d)
  end.

(** [s.padStart(n, fill)]: the text is filled from the left, with [fill]
    repeated and cut, up to the length [n]. *)
Fixpoint cycle (k : nat) (fill rest : string) : string :=
  match k with
  | O => EmptyString
  | S k' =>
      match rest with
      | String c r => String c (cycle k' fill r)
      | EmptyString =>
          match fill with
          | String c r => String c (cycle k' fill r)
          | EmptyString => EmptyString
          end
      end
  end.

Definition padStart (n : nat) (fill s : string) : string :=
  cycle (n - String.length s) fill fill ++ s.

End JS.

(** ** components/AppleMusicLyricsPlayer.tsx *)

Module Lyrics.

(** [{ time: number; text: string }], [time] in seconds. *)
Record LyricLine : Type := mkLine { time : Q; text : string }.

(** *** The regular expression [/\[(\d{1,2}):(\d{2}(?:\.\d{1,3})?)\]/g] *)

(** The longest prefix of at most [n] digits, and what follows it. *)
Fixpoint take_digits (n : nat) (s : string) : string * string :=
  match n, s with
  | S k, String c s' =>
      if JS.is_digit c
      then let (d, r) := take_digits k s' in (String c d, r)
      else (EmptyString, s)
  | _, _ => (EmptyString, s)
  end.

Definition expect (c : ascii) (s : string) : option string :=
  match s with
  | String d s' => if Ascii.eqb c d then Some s' else None
  | EmptyString => None
  end.

(** The optional group [(?:\.\d{1,3})?] followed by the closing bracket.
    The result is the text of the group and what follows the bracket. *)
Definition match_fraction (s : string) : option (string * string) :=
  match s with
  | String c s' =>
      if Ascii.eqb c "." then
        let (f, r) := take_digits 3 s' in
        match f with
        | EmptyString => None
        | _ => match expect "]" r with
               | Some r' => Some (String "." f, r')
               | None => None
               end
        end
      else if Ascii.eqb c "]" then Some (EmptyString, s')
      else None
  | EmptyString => None
  end.

(** A match of the expression at the very start of [s]: the two capture
    groups and the text after the match.  Every quantifier is followed by a
    character that is not a digit, so the greedy choice is the only one and
    no backtracking is needed. *)
Definition match_here (s : string) : option (string * string * string) :=
  match expect "[" s with
  | None => None
  | Some s1 =>
      let (m1, s2) := take_digits 2 s1 in
      match m1 with
      | EmptyString => None
      | _ =>
          match expect ":" s2 with
          | None => None
          | Some s3 =>
              let (sec, s4) := take_digits 2 s3 in
              if (String.length sec =? 2)%nat then
                match match_fraction s4 with
                | Some (f, rest) => Some (m1, sec ++ f, rest)
                | None => None
                end
              else None
          end
      end
  end.

(** [re.exec(raw)] from [lastIndex]: the leftmost match in the text that is
    left, or [None] for [null].  The text after the match is what the next
    call sees ([lastIndex] is moved behind the match). *)
Fixpoint exec (s : string) : option (string * string * string) :=
  match match_here s with
  | Some m => Some m
  | None =>
      match s with
      | EmptyString => None
      | String _ s' => exec s'
      end
  end.

(** Both loops below restart behind the match they found; they end because
    a match is never empty. *)
Lemma take_digits_length n s d r :
  take_digits n s = (d, r) ->
  (String.length s = String.length d + String.length r)%nat.
Proof.
  revert s d r; induction n as [|k IH]; intros [|c s'] d r; simpl;
    try (intros [= <- <-]; reflexivity).
  destruct (JS.is_digit c).
  - destruct (take_digits k s') as [d' r'] eqn:E.
    intros [= <- <-]. simpl. now rewrite (IH _ _ _ E).
  - intros [= <- <-]. reflexivity.
Qed.

Lemma expect_length c s r :
  expect c s = Some r -> String.length s = S (String.length r).
Proof.
  destruct s as [|d s']; simpl; [discriminate|].
  destruct (Ascii.eqb c d); [intros [= <-]; reflexivity | discriminate].
Qed.

Lemma match_fraction_shorter s f r :
  match_fraction s = Some (f, r) -> (String.length r < String.length s)%nat.
Proof.
  destruct s as [|c s']; cbn [match_fraction]; [discriminate|].
  destruct (Ascii.eqb c ".").
  - destruct (take_digits 3 s') as [d r'] eqn:E.
    destruct d as [|d0 d']; [discriminate|].
    destruct (expect "]" r') as [r''|] eqn:E'; [|discriminate].
    intros [= <- <-].
    apply take_digits_length in E. apply expect_length in E'.
    simpl in *. lia.
  - destruct (Ascii.eqb c "]"); [|discriminate].
    intros [= <- <-]. simpl. lia.
Qed.

Lemma match_here_shorter s m1 m2 r :
  match_here s = Some (m1, m2, r) -> (String.length r < String.length s)%nat.
Proof.
  unfold match_here.
  destruct (expect "[" s) as [s1|] eqn:E1; [|discriminate].
  destruct (take_digits 2 s1) as [d1 s2] eqn:E2.
  destruct d1 as [|c1 d1]; [discriminate|].
  destruct (expect ":" s2) as [s3|] eqn:E3; [|discriminate].
  destruct (take_digits 2 s3) as [sec s4] eqn:E4.
  destruct (String.length sec =? 2)%nat; [|discriminate].
  destruct (match_fraction s4) as [[f rest]|] eqn:E5; [|discriminate].
  intros [= <- <- <-].
  apply expect_length in E1, E3. apply take_digits_length in E2, E4.
  apply match_fraction_shorter in E5. simpl in *. lia.
Qed.

Lemma exec_shorter s m1 m2 r :
  exec s = Some (m1, m2, r) -> (String.length r < String.length s)%nat.
Proof.
  induction s as [|c s' IH]; cbn [exec].
  - discriminate.
  - destruct (match_here (String c s')) as [[[a b] q]|] eqn:E.
    + intros [= <- <- <-]. now apply match_here_shorter in E.
    + intros H. apply IH in H. simpl. lia.
Qed.

(** The loop [while ((m = re.exec(raw)) !== null)] of [parseLRC]: the
    minutes are read with [parseInt], the seconds with [parseFloat], and
    [mm * 60 + ss] is pushed.  Both captures start with a digit, so neither
    value is [NaN] and the guard of the push always passes. *)
Equations? exec_times (s : string) : list Q by wf (String.length s) lt :=
  exec_times s with inspect (exec s) := {
    | exist _ (Some (m1, m2, rest)) E =>
        (inject_Z (JS.parseInt m1) * 60 + JS.parseFloat m2)%Q
          :: exec_times rest
    | exist _ None _ => [] }.
Proof. exact (exec_shorter _ _ _ _ E). Qed.

(** [raw.replace(re, "")]: every match is cut out, left to right. *)
Equations? remove_stamps (s : string) : string by wf (String.length s) lt :=
  remove_stamps EmptyString := EmptyString;
  remove_stamps (String c s') with inspect (match_here (String c s')) := {
    | exist _ (Some (_, _, rest)) E => remove_stamps rest
    | exist _ None _ => String c (remove_stamps s') }.
Proof. exact (match_here_shorter _ _ _ _ E). Qed.

(** The body of [for (const raw of lines)]: the entries one line adds to
    [out].  An all-blank line and a line without residual text add none. *)
Definition line_entries (raw : string) : list LyricLine :=
  if JS.is_empty (JS.trim raw) then []
  else
    let times := exec_times raw in
    let txt := JS.trim (remove_stamps raw) in
    if JS.is_empty txt then []
    else map (fun t => mkLine t txt) times.

(** The comparator [(a, b) => a.time - b.time]. *)
Definition time_le (a b : LyricLine) : bool := Qle_bool (time a) (time b).

Definition parseLRC (text : string) : list LyricLine :=
  if JS.is_empty text then []
  else JS.sort time_le (flat_map line_entries (JS.split_lines text)).

(** *** The binary search of the animation-frame [loop]

    [while (low <= high) { mid = Math.floor((low + high) / 2); ... }].
    [None] stands for the [TypeError] of reading [.time] of [undefined]. *)
Equations? search (lyrics : list LyricLine) (t : Q) (low high ans : Z)
  : option Z by wf (Z.to_nat (high - low + 1)) lt :=
  search lyrics t low high ans with inspect (low <=? high) := {
    | exist _ false _ => Some ans
    | exist _ true E with JS.index lyrics ((low + high) / 2) := {
        | None => None
        | Some l with Qle_bool (time l) t := {
            | true => search lyrics t ((low + high) / 2 + 1) high ((low + high) / 2)
            | false => search lyrics t low ((low + high) / 2 - 1) ans } } }.
Proof.
  all: apply Z.leb_le in E;
    pose proof (Z.div_le_lower_bound (low + high) 2 low);
    pose proof (Z.div_le_upper_bound (low + high) 2 high); lia.
Qed.

(** One tick of the loop for the playback time [t]: the index that is
    stored in [currentIndexRef].  With no lyrics the effect sets [-1] and
    starts no loop. *)
Definition currentIndex (lyrics : list LyricLine) (t : Q) : option Z :=
  match lyrics with
  | [] => Some (-1)
  | _ => search lyrics t 0 (Z.of_nat (List.length lyrics) - 1) (-1)
  end.

(** The end of a tick:
    [if (ans !== currentIndexRef.current) { currentIndexRef.current = ans; setIndex(ans); }].
    The result is the ref after the tick and the argument of [setIndex], if
    it is called. *)
Definition store_index (ans ref : Z) : Z * option Z :=
  if ans =? ref then (ref, None) else (ans, Some ans).

Definition tick (lyrics : list LyricLine) (t : Q) (ref : Z)
  : option (Z * option Z) :=
  match currentIndex lyrics t with
  | Some ans => Some (store_index ans ref)
  | None => None
  end.

(** The ticks at the playback times [ts], one after the other: the ref at
    the end and the calls of [setIndex], in order. *)
Fixpoint ticks (lyrics : list LyricLine) (ts : list Q) (ref : Z)
  : option (Z * list Z) :=
  match ts with
  | [] => Some (ref, [])
  | t :: ts' =>
      match tick lyrics t ref with
      | None => None
      | Some (ref', call) =>
          match ticks lyrics ts' ref' with
          | None => None
          | Some (r, calls) =>
              Some (r, match call with
                       | Some i => i :: calls
                       | None => calls
                       end)
          end
      end
  end.

End Lyrics.


(** *** The object URL of the audio file

    [live] is the browser's side of the story: the object URLs that were
    created and not revoked. *)

Module Blob.

Record State : Type := mkState {
  activeBlob : option string;
  audioSrc : option string;
  fileName : option string;
  audioError : option string;
  live : list string
}.

Definition initial : State := mkState None None None None [].

(** [URL.revokeObjectURL(u)]; an unknown URL is ignored. *)
Definition revoke (u : string) (l : list string) : list string :=
  remove string_dec u l.

(** [onAudioFile]: [file] is the name of [e.target.files?.[0]], if there is
    one, and [created] what [URL.createObjectURL] returns, [None] when it
    throws. *)
Definition onAudioFile (file : option string) (created : option string)
  (s : State) : State :=
  match file with
  | None => s
  | Some name =>
      match created with
      | None =>
          mkState (activeBlob s) (audioSrc s) (fileName s)
                  (Some "Could not create object URL for file.") (live s)
      | Some url =>
          let live1 := url :: live s in
          mkState (Some url) (Some url)
                  (Some (if JS.is_empty name then "track" else name))
                  None
                  match activeBlob s with
                  | Some prev =>
                      if negb (JS.is_empty prev) && negb (String.eqb prev url)
                      then revoke prev live1
                      else live1
                  | None => live1
                  end
      end
  end.

(** The [error] handler of the audio element, for the error code [code]. *)
Definition onError (code : Z) (s : State) : State :=
  mkState (activeBlob s) None None
          (Some ("Playback error. Code " ++ JS.Z_to_string code ++ "."))
          (live s).

(** The [canplay] handler. *)
Definition onCanPlay (s : State) : State :=
  mkState (activeBlob s) (audioSrc s) (fileName s) None (live s).

(** The cleanup on unmount: the active URL is revoked and forgotten. *)
Definition unmount (s : State) : State :=
  match activeBlob s with
  | Some u =>
      if JS.is_empty u then s
      else mkState None (audioSrc s) (fileName s) (audioError s)
                   (revoke u (live s))
  | None => s
  end.

Inductive Event : Type :=
| Upload (file : option string) (created : option string)
| PlaybackError (code : Z)
| CanPlay.

Definition handle (s : State) (e : Event) : State :=
  match e with
  | Upload file created => onAudioFile file created s
  | PlaybackError code => onError code s
  | CanPlay => onCanPlay s
  end.

Definition run (es : list Event) : State := fold_left handle es initial.

End Blob.

(** *** The second player of AppleMusicLyricsPlayer.tsx (lines 322-649)

    Its [parseLRC] has the same expression and the same loops, and no test
    of the residual text. *)

Module LyricsMotion.

Definition line_entries (raw : string) : list Lyrics.LyricLine :=
  if JS.is_empty (JS.trim raw) then []
  else
    let times := Lyrics.exec_times raw in
    let textOnly := JS.trim (Lyrics.remove_stamps raw) in
    map (fun t => Lyrics.mkLine t textOnly) times.

Definition parseLRC (text : string) : list Lyrics.LyricLine :=
  if JS.is_empty text then []
  else JS.sort Lyrics.time_le (flat_map line_entries (JS.split_lines text)).

End LyricsMotion.

(** *** Player.jsx, the second component of VirtualList.tsx (lines 87-332)

    Its [parseLRC] skips no line and tests nothing. *)

Module PlayerJsx.

Definition line_entries (raw : string) : list Lyrics.LyricLine :=
  let times := Lyrics.exec_times raw in
  let txt := JS.trim (Lyrics.remove_stamps raw) in
  map (fun t => Lyrics.mkLine t txt) times.

Definition parseLRC (text : string) : list Lyrics.LyricLine :=
  if JS.is_empty text then []
  else JS.sort Lyrics.time_le (flat_map line_entries (JS.split_lines text)).

End PlayerJsx.

(** ** components/Player/Player.tsx *)

Module Player.

(** [Word] and [Segment] as the component uses them; an optional field is an
    [option]. *)
Record Word : Type := mkWord { w_text : string; w_start_ms : Z; w_end_ms : Z }.

Record Segment : Type := mkSegment {
  id : string;
  start_ms : Z;
  end_ms : option Z;
  text : string;
  words : option (list Word)
}.

Definition set_end_ms (s : Segment) (e : Z) : Segment :=
  mkSegment (id s) (start_ms s) (Some e) (text s) (words s).

(** [!s.end_ms || s.end_ms <= s.start_ms]: an absent end and the end [0] are
    both falsy. *)
Definition end_unresolved (s : Segment) : bool :=
  match end_ms s with
  | None => true
  | Some e => (e =? 0) || (e <=? start_ms s)
  end.

(** One round of the loop in [onLrcFileInput], at index [i].  Inside the
    bounds of the loop both segments exist. *)
Definition infer_step (segs : list Segment) (i : nat) : list Segment :=
  match nth_error segs i, nth_error segs (S i) with
  | Some s, Some n =>
      if end_unresolved s
      then JS.update i (set_end_ms s (start_ms n - 1)) segs
      else segs
  | _, _ => segs
  end.

(** [for (let i = 0; i < segs.length - 1; i++) ...], in place. *)
Definition infer_ends (segs : list Segment) : list Segment :=
  fold_left infer_step (seq 0 (List.length segs - 1)) segs.

(** The comparator [(a, b) => a.start_ms - b.start_ms]. *)
Definition start_le (a b : Segment) : bool := start_ms a <=? start_ms b.

(** The segment built by [onWaveSelection(startMs, endMs)]. *)
Definition manual_segment (startMs endMs : Q) : Segment :=
  mkSegment ("manual-" ++ JS.number_to_string startMs)
            (Qfloor startMs) (Some (Qfloor endMs)) "Selected segment" None.

(** The state update of [onWaveSelection]: [[...s, seg].sort(...)]. *)
Definition onWaveSelection (startMs endMs : Q) (s : list Segment)
  : list Segment :=
  JS.sort start_le (s ++ [manual_segment startMs endMs]).

(** Modelled from the spec: the segment that [parseAnyToSegments], whose
    module [./parsers] is not among the sources, makes of one timestamp of an
    LRC line.  It has the text of the line and the time of the timestamp in
    milliseconds, and its end is left to the shared post-processing.  The
    spec does not say how ids are chosen, so they come from [ids]. *)
Definition segment_of_line (ids : nat -> string) (i : nat) (l : Lyrics.LyricLine)
  : Segment :=
  mkSegment (ids i) (Qfloor (Lyrics.time l * 1000)) None (Lyrics.text l) None.

(** Modelled from the spec: the segments of the entries [ls], the first of
    which is entry number [i], in the order of the entries. *)
Fixpoint segments_from (ids : nat -> string) (i : nat)
  (ls : list Lyrics.LyricLine) : list Segment :=
  match ls with
  | [] => []
  | l :: ls' => segment_of_line ids i l :: segments_from ids (S i) ls'
  end.

(** Modelled from the spec: the LRC branch of [parseAnyToSegments], which is
    not among the sources.  Every timestamp of a line gives one segment with
    the text of the line, and the output is sorted by start time; the
    entries are those of [parseLRC]. *)
Definition parseAnyToSegments_lrc (ids : nat -> string) (text : string)
  : list Segment :=
  segments_from ids 0 (Lyrics.parseLRC text).

(** [onLrcFileInput] for an [.lrc] file: parse, then infer the end times. *)
Definition onLrcFileInput (ids : nat -> string) (text : string)
  : list Segment :=
  infer_ends (parseAnyToSegments_lrc ids text).

(** [msToTime(ms)] for an integer [ms]; the guard [!ms && ms !== 0] holds
    for no integer.  [%] is the remainder with the sign of the dividend.
    The integer arithmetic is that of the code for [ms] of magnitude below
    [2^53]: there the quotients by 1000 and by 60 are rounded by less than
    their distance to the next integer, so both floors are the exact ones;
    from [2^53] on the code rounds and the model does not follow it. *)
Definition msToTime (ms : Z) : string :=
  let s := ms / 1000 in
  let m := s / 60 in
  let sec := Z.rem s 60 in
  JS.Z_to_string m ++ ":" ++ JS.padStart 2 "0" (JS.Z_to_string sec).

End Player.


(** ** components/Player/VirtualList.tsx *)

Module VirtualList.

Section Window.

Context {A : Type}.

(** The props of the component and its scroll state. *)
Variable items : list A.
Variables itemHeight height : Z.
Variable overscan : option Z.
Variable scrollTop : Z.

(** [overscan = 5] when the prop is left out. *)
Definition overscan_or_default : Z :=
  match overscan with Some o => o | None => 5 end.

Definition itemCount : Z := Z.of_nat (List.length items).

(** [Math.floor(x / y)] on integers is [Z.div]. *)
Definition startIndex : Z :=
  Z.max 0 (scrollTop / itemHeight - overscan_or_default).

Definition endIndex : Z :=
  Z.min (itemCount - 1)
        ((scrollTop + height) / itemHeight + overscan_or_default).

Definition topPad : Z := startIndex * itemHeight.

Definition visible : list A := JS.slice items startIndex (endIndex + 1).

End Window.

(** [clamp(v, a, b)] *)
Definition clamp (v a b : Q) : Q := Qmax a (Qmin b v).

Inductive Align : Type := center | start.

(** [maxScroll] and [target] of [scrollToIndex(i, align)].  The handle is
    made once, so [count] and [itemHeight] are those of the render in which
    it was made; [clientHeight] is read from the element at the call. *)
Definition maxScroll (count itemHeight clientHeight : Z) : Z :=
  Z.max 0 (count * itemHeight - clientHeight).

Definition scrollTarget (count itemHeight clientHeight i : Z) (align : Align)
  : Q :=
  clamp (inject_Z (i * itemHeight)
         - match align with
           | center => inject_Z clientHeight / 2 - inject_Z itemHeight / 2
           | start => 0
           end)
        0 (inject_Z (maxScroll count itemHeight clientHeight)).

(** The handle of [useImperativeHandle(ref, () => ({ scrollToIndex }), [])].
    With the empty list of dependencies the handle is made in the first
    render and kept in every later one: [items] and [itemHeight] inside
    [scrollToIndex] are the props of the first render, although the comment
    on the dependencies says that the method reads the latest items.
    [outerRef.current] is a ref and is read at the call. *)
Record Handle : Type := mkHandle { h_count : Z; h_itemHeight : Z }.

Definition first_render {A} (items : list A) (itemHeight : Z) : Handle :=
  mkHandle (Z.of_nat (List.length items)) itemHeight.

Definition later_render {A} (h : Handle) (items : list A) (itemHeight : Z)
  : Handle := h.

(** The handle after the first render and the renders [later], each with
    its [items] and [itemHeight]. *)
Definition handle_after {A} (items : list A) (itemHeight : Z)
  (later : list (list A * Z)) : Handle :=
  fold_left (fun h p => later_render h (fst p) (snd p)) later
            (first_render items itemHeight).

(** The scroll offset that [scrollToIndex(i, align)] of the handle [h]
    moves to, for an element of height [clientHeight]. *)
Definition scrollToIndex (h : Handle) (clientHeight i : Z) (align : Align) : Q :=
  scrollTarget (h_count h) (h_itemHeight h) clientHeight i align.

End VirtualList.

(** ** The waveform editor of components/Player/Player.tsx *)

Module Waveform.

(** The inner loop of [draw] for the column [i]: [n] rounds are left and
    the next one is round [j]. *)
Fixpoint column_loop (ch : list Q) (i step : Z) (n : nat) (j : Z) (mn mx : Q)
  : Q * Q :=
  match n with
  | O => (mn, mx)
  | S n' =>
      let idx := i * step + j in
      if idx >=? Z.of_nat (List.length ch) then (mn, mx)
      else
        match JS.index ch idx with
        | None => (mn, mx)
        | Some v =>
            column_loop ch i step n' (j + 1)
              (if JS.Qltb v mn then v else mn)
              (if JS.Qltb mx v then v else mx)
        end
  end.

(** [step = Math.max(1, Math.floor(ch.length / w))] *)
Definition step_of (ch : list Q) (w : Z) : Z :=
  Z.max 1 (Z.of_nat (List.length ch) / w).

(** The pair [(min, max)] of every column [0 <= i < w], each started from
    [min = 1] and [max = -1]. *)
Definition peaks (ch : list Q) (w : Z) : list (Q * Q) :=
  let step := step_of ch w in
  map (fun i => column_loop ch (Z.of_nat i) step (Z.to_nat step) 0 1 (-1)%Q)
      (seq 0 (Z.to_nat w)).

(** The canvas width of [draw]: [Math.floor(Math.max(300, clientWidth || 300) * dpr)]. *)
Definition canvas_width (clientWidth : Z) (dpr : Q) : Z :=
  let cw := if clientWidth =? 0 then 300 else clientWidth in
  Qfloor (inject_Z (Z.max 300 cw) * dpr).

(** [toMs(clientX)]: [left] and [width] are those of the bounding rectangle,
    [duration] is that of the decoded buffer, if there is one. *)
Definition toMs (left width : Q) (duration : option Q) (clientX : Q) : Q :=
  let frac := Qmin 1 (Qmax 0 ((clientX - left) / width)) in
  match duration with
  | Some d => d * 1000 * frac
  | None => 0
  end.

(** The gesture state: the flag [dragging] and [selRef.current]. *)
Record Gesture : Type := mkGesture { dragging : bool; sel : option (Q * Q) }.

Definition idle : Gesture := mkGesture false None.

Section Handlers.

Variables left width : Q.
Variable duration : option Q.

Definition onPointerDown (g : Gesture) (clientX : Q) : Gesture :=
  let t := toMs left width duration clientX in
  mkGesture true (Some (t, t)).

Definition onPointerMove (g : Gesture) (clientX : Q) : Gesture :=
  match dragging g, sel g with
  | true, Some (a, _) =>
      mkGesture true (Some (a, toMs left width duration clientX))
  | _, _ => g
  end.

(** The new state and, when a drag is on, the arguments of the call of
    [onSelection]; the player always passes this handler. *)
Definition onPointerUp (g : Gesture) (clientX : Q)
  : Gesture * option (Q * Q) :=
  match dragging g, sel g with
  | true, Some (a0, _) =>
      let b0 := toMs left width duration clientX in
      let a := Qmin a0 b0 in
      let b := Qmax a0 b0 in
      (mkGesture false (Some (a0, b0)), Some (a, b))
  | _, _ => (g, None)
  end.

(** A whole drag: press at [x0], move through [xs], release at [x1]. *)
Definition drag (x0 : Q) (xs : list Q) (x1 : Q) : Gesture * option (Q * Q) :=
  onPointerUp (fold_left onPointerMove xs (onPointerDown idle x0)) x1.

End Handlers.

(** The pointer events the editor listens to, and a run of them from the
    state [g]: the state at the end and the committed selections. *)
Inductive Event : Type :=
| PointerDown (clientX : Q)
| PointerMove (clientX : Q)
| PointerUp (clientX : Q).

Definition dispatch (left width : Q) (duration : option Q)
  (g : Gesture) (e : Event) : Gesture * option (Q * Q) :=
  match e with
  | PointerDown x => (onPointerDown left width duration g x, None)
  | PointerMove x => (onPointerMove left width duration g x, None)
  | PointerUp x => onPointerUp left width duration g x
  end.

Fixpoint run (left width : Q) (duration : option Q)
  (g : Gesture) (es : list Event) : Gesture * list (Q * Q) :=
  match es with
  | [] => (g, [])
  | e :: es' =>
      let (g', c) := dispatch left width duration g e in
      let (g'', cs) := run left width duration g' es' in
      (g'', match c with Some p => p :: cs | None => cs end)
  end.

(** The segment a committed selection becomes in the player. *)
Definition commit (s : list Player.Segment) (selection : Q * Q)
  : list Player.Segment :=
  Player.onWaveSelection (fst selection) (snd selection) s.

End Waveform.

(** ** Vocabulary of the statements *)

Module Spec.

(** A plain scan over all lines: the last index whose time is at most [t],
    or [ans] when the scan finds none.  [i] is the index of the head. *)
Fixpoint linear_scan (lyrics : list Lyrics.LyricLine) (t : Q) (i ans : Z) : Z :=
  match lyrics with
  | [] => ans
  | l :: rest =>
      linear_scan rest t (i + 1) (if Qle_bool (Lyrics.time l) t then i else ans)
  end.

Definition naive_index (lyrics : list Lyrics.LyricLine) (t : Q) : Z :=
  linear_scan lyrics t 0 (-1).

(** Ascending times. *)
Definition by_time (a b : Lyrics.LyricLine) : Prop :=
  (Lyrics.time a <= Lyrics.time b)%Q.

(** Ascending start times. *)
Definition by_start (a b : Player.Segment) : Prop :=
  Player.start_ms a <= Player.start_ms b.

(** What end-time inference makes of the segment [s] at index [i]. *)
Definition inferred_at (segs : list Player.Segment) (i : nat)
  (s : Player.Segment) : Player.Segment :=
  match nth_error segs (S i) with
  | Some n =>
      if Player.end_unresolved s
      then Player.set_end_ms s (Player.start_ms n - 1)
      else s
  | None => s
  end.

(** No segment but the last is left with an absent end, or with an end at
    or before its start, other than the one inferred from its successor. *)
Definition ends_resolved (l : list Player.Segment) : Prop :=
  forall i s n,
    nth_error l i = Some s -> nth_error l (S i) = Some n ->
    Player.end_unresolved s = true ->
    Player.end_ms s = Some (Player.start_ms n - 1).

Definition nl : string := String JS.LF EmptyString.

(** The running minimum and maximum over a chunk of samples. *)
Definition min_max_step (acc : Q * Q) (v : Q) : Q * Q :=
  (if JS.Qltb v (fst acc) then v else fst acc,
   if JS.Qltb (snd acc) v then v else snd acc).

Definition min_max_from (acc : Q * Q) (chunk : list Q) : Q * Q :=
  fold_left min_max_step chunk acc.

(** The samples of column [i] when every column takes [size] samples: those
    at the indices [i * size], ..., [i * size + size - 1] that exist. *)
Definition chunk (ch : list Q) (size i : Z) : list Q :=
  firstn (Z.to_nat size) (skipn (Z.to_nat (i * size)) ch).

(** [ceil(n / w)] for a positive [w]. *)
Definition ceil_div (n w : Z) : Z := (n + w - 1) / w.

(** [p] is the least and the greatest value of a chunk. *)
Definition is_min_max (c : list Q) (p : Q * Q) : Prop :=
  (forall v, In v c -> (fst p <= v <= snd p)%Q) /\
  (exists v, In v c /\ (v == fst p)%Q) /\
  (exists v, In v c /\ (v == snd p)%Q).

(** A line feed occurs in [s]. *)
Fixpoint has_lf (s : string) : bool :=
  match s with
  | EmptyString => false
  | String c s' => Ascii.eqb c JS.LF || has_lf s'
  end.

(** A line without the carriage return of a CRLF ending: the piece that
    [split] makes of a line in front of a line feed. *)
Fixpoint chomp_cr (s : string) : string :=
  match s with
  | EmptyString => EmptyString
  | String c s' =>
      match s' with
      | EmptyString => if Ascii.eqb c JS.CR then EmptyString else s
      | _ => String c (chomp_cr s')
      end
  end.

(** A well-formed timestamp [[mm:ss]] or [[mm:ss.fff]], by its digits. *)
Record Stamp : Type := mkStamp {
  st_min : string;
  st_sec : string;
  st_frac : option string
}.

Fixpoint all_digits (s : string) : bool :=
  match s with
  | EmptyString => true
  | String c s' => JS.is_digit c && all_digits s'
  end.

Definition stamp_ok (st : Stamp) : bool :=
  all_digits (st_min st)
  && (1 <=? String.length (st_min st))%nat && (String.length (st_min st) <=? 2)%nat
  && all_digits (st_sec st) && (String.length (st_sec st) =? 2)%nat
  && match st_frac st with
     | None => true
     | Some f =>
         all_digits f && (1 <=? String.length f)%nat && (String.length f <=? 3)%nat
     end.

Definition seconds_text (st : Stamp) : string :=
  st_sec st ++ match st_frac st with
               | Some f => String "." f
               | None => EmptyString
               end.

Definition render (st : Stamp) : string :=
  "[" ++ st_min st ++ ":" ++ seconds_text st ++ "]".

(** The time a timestamp stands for, in seconds. *)
Definition stamp_time (st : Stamp) : Q :=
  (inject_Z (JS.parseInt (st_min st)) * 60 + JS.parseFloat (seconds_text st))%Q.

(** A line that carries the timestamps [stamps] and then [txt]. *)
Definition line (stamps : list Stamp) (txt : string) : string :=
  fold_right (fun st r => render st ++ r) txt stamps.

(** The entries a line with the timestamps [stamps] and the text [txt]
    stands for: one for every timestamp, each with the trimmed text. *)
Definition stamp_entries (stamps : list Stamp) (txt : string)
  : list Lyrics.LyricLine :=
  map (fun st => Lyrics.mkLine (stamp_time st) (JS.trim txt)) stamps.

(** The timestamp expression finds nothing in [s]. *)
Definition no_match (s : string) : bool :=
  match Lyrics.exec s with
  | None => true
  | Some _ => false
  end.

(** The lines of an LRC text, by what they hold: well-formed timestamps
    followed by a text, or nothing that the timestamp expression matches (a
    line with a malformed timestamp only, a comment, an empty line). *)
Inductive LrcLine : Type :=
  | Stamped (stamps : list Stamp) (txt : string)
  | Unmatched (s : string).

Definition lrc_line_ok (k : LrcLine) : bool :=
  match k with
  | Stamped stamps txt =>
      forallb stamp_ok stamps && no_match txt && negb (has_lf txt)
  | Unmatched s => no_match s && negb (has_lf s)
  end.

Definition lrc_line_text (k : LrcLine) : string :=
  match k with
  | Stamped stamps txt => line stamps txt
  | Unmatched s => s
  end.

(** The lines joined by line feeds. *)
Definition text_of_lines (ks : list LrcLine) : string :=
  String.concat nl (map lrc_line_text ks).

(** The entries a line stands for: none for a line without a match, and
    none for timestamps without a text. *)
Definition lrc_line_entries (k : LrcLine) : list Lyrics.LyricLine :=
  match k with
  | Stamped stamps txt =>
      if JS.is_empty (JS.trim txt) then [] else stamp_entries stamps txt
  | Unmatched _ => []
  end.

(** The line [l] between [before] and [after] is skipped: the text parses
    as it does without the line. *)
Definition skipped (before l after : string) : Prop :=
  Lyrics.parseLRC (before ++ nl ++ l ++ nl ++ after)
  = Lyrics.parseLRC (before ++ nl ++ after).

(** The shape of the two captures of a match. *)
Definition captures_ok (m1 m2 : string) : Prop :=
  all_digits m1 = true /\
  (1 <= String.length m1 <= 2)%nat /\
  exists sec f,
    m2 = sec ++ f /\ all_digits sec = true /\ String.length sec = 2%nat /\
    (f = EmptyString \/
     exists d, f = String "." d /\ all_digits d = true /\
               (1 <= String.length d <= 3)%nat).

(** Nothing but white space. *)
Fixpoint all_space (s : string) : bool :=
  match s with
  | EmptyString => true
  | String c s' => JS.is_space c && all_space s'
  end.

(** An entry with some text. *)
Definition has_text (l : Lyrics.LyricLine) : bool :=
  negb (JS.is_empty (Lyrics.text l)).

(** The number of presses in a run of pointer events. *)
Fixpoint count_presses (es : list Waveform.Event) : nat :=
  match es with
  | [] => O
  | Waveform.PointerDown _ :: es' => S (count_presses es')
  | _ :: es' => count_presses es'
  end.

(** The URL in a ref, as a list. *)
Definition olist (o : option string) : list string :=
  match o with Some u => [u] | None => [] end.

(** The URLs [createObjectURL] returns in a run of events. *)
Fixpoint created_urls (es : list Blob.Event) : list string :=
  match es with
  | [] => []
  | Blob.Upload (Some _) (Some u) :: es' => u :: created_urls es'
  | _ :: es' => created_urls es'
  end.

(** The character of a decimal digit. *)
Definition digit_char (k : Z) : ascii := ascii_of_nat (48 + Z.to_nat k).

(** The two decimal digits of a number below 100. *)
Definition two_digits (k : Z) : string :=
  String (digit_char (k / 10)) (String (digit_char (k mod 10)) EmptyString).

(** The label of [m] minutes and [sec] seconds, in brackets, is read by the
    timestamp expression as [m * 60 + sec] seconds and nothing else. *)
Definition label_reads_back (m sec : Z) : bool :=
  match Lyrics.exec_times
          ("[" ++ (JS.Z_to_string m ++ ":" ++ two_digits sec) ++ "]") with
  | [q] => Qeq_bool q (inject_Z (m * 60 + sec))
  | _ => false
  end.

(** Sample inputs. *)
Definition three_lines : list Lyrics.LyricLine :=
  [Lyrics.mkLine 0 "a"; Lyrics.mkLine 4 "b"; Lyrics.mkLine 8.5 "c"].

Definition two_segments : list Player.Segment :=
  [Player.mkSegment "s0" 0 None "a" None;
   Player.mkSegment "s1" 4000 None "b" None].

Definition two_uploads : list Blob.Event :=
  [Blob.Upload (Some "a.mp3") (Some "blob:1"); Blob.PlaybackError 4;
   Blob.Upload (Some "b.mp3") None; Blob.Upload (Some "c.mp3") (Some "blob:2");
   Blob.CanPlay].

End Spec.

(** ** Facts about the runtime pieces *)

Section SortFacts.

Context {A : Type} (le : A -> A -> bool).

Lemma insert_perm x l : Permutation (JS.insert le x l) (x :: l).
Proof.
  induction l as [|y ys IH]; simpl; [reflexivity|].
  destruct (le x y); [reflexivity|].
  rewrite IH. apply perm_swap.
Qed.

Lemma sort_perm l : Permutation (JS.sort le l) l.
Proof.
  induction l as [|x xs IH]; simpl; [constructor|].
  rewrite insert_perm. now constructor.
Qed.

Lemma sort_length l : List.length (JS.sort le l) = List.length l.
Proof. apply Permutation_length, sort_perm. Qed.

Hypothesis le_total : forall a b, le a b = false -> le b a = true.

Let R (a b : A) : Prop := le a b = true.

Lemma insert_sorted x l : Sorted R l -> Sorted R (JS.insert le x l).
Proof.
  induction 1 as [|y ys Hs IH Hd]; simpl.
  - repeat constructor.
  - destruct (le x y) eqn:E.
    + constructor; [now constructor|]. now constructor.
    + constructor; [exact IH|].
      destruct ys as [|z zs]; simpl.
      * constructor. now apply le_total.
      * destruct (le x z); constructor.
        -- now apply le_total.
        -- now inversion Hd.
Qed.

Lemma sort_sorted l : Sorted R (JS.sort le l).
Proof.
  induction l as [|x xs IH]; simpl; [constructor|].
  now apply insert_sorted.
Qed.

End SortFacts.

Lemma index_Some {A} (l : list A) i x :
  JS.index l i = Some x <-> 0 <= i /\ nth_error l (Z.to_nat i) = Some x.
Proof.
  unfold JS.index. destruct (Z.ltb_spec i 0); split.
  - discriminate.
  - intros [? _]. lia.
  - intros H'. split; [lia|exact H'].
  - now intros [_ H'].
Qed.

Lemma index_in_range {A} (l : list A) i :
  0 <= i < Z.of_nat (List.length l) -> exists x, JS.index l i = Some x.
Proof.
  intros H. destruct (nth_error l (Z.to_nat i)) as [x|] eqn:E.
  - exists x. apply index_Some. split; [lia|exact E].
  - apply nth_error_None in E. lia.
Qed.

Lemma index_lt {A} (l : list A) i x :
  JS.index l i = Some x -> 0 <= i < Z.of_nat (List.length l).
Proof.
  intros H. apply index_Some in H as [H0 H].
  assert (nth_error l (Z.to_nat i) <> None) as N by congruence.
  apply nth_error_Some in N. lia.
Qed.

(** ** The current line *)

Section CurrentLine.

Import Lyrics Spec.

Variable lyrics : list LyricLine.
Variable t : Q.

Definition started (l : LyricLine) : Prop := (time l <= t)%Q.

Hypothesis lyrics_sorted : Sorted by_time lyrics.

Lemma sorted_index i j a b :
  JS.index lyrics i = Some a -> JS.index lyrics j = Some b -> i <= j ->
  by_time a b.
Proof.
  assert (StronglySorted by_time lyrics) as SS.
  { apply Sorted_StronglySorted; [|exact lyrics_sorted].
    intros x y z. unfold by_time. apply Qle_trans. }
  clear lyrics_sorted. intros Ha Hb Hij.
  apply index_Some in Ha as [Hi Ha]. apply index_Some in Hb as [Hj Hb].
  assert (Z.to_nat i <= Z.to_nat j)%nat as Hn by lia.
  clear Hi Hj Hij. revert Ha Hb Hn.
  generalize (Z.to_nat i) (Z.to_nat j). clear i j.
  induction SS as [|x xs SS IH Hall]; intros m n Ha Hb Hn.
  - destruct m; discriminate.
  - destruct m as [|m], n as [|n]; simpl in *.
    + injection Ha as <-. injection Hb as <-. unfold by_time. apply Qle_refl.
    + injection Ha as <-. apply nth_error_In in Hb.
      rewrite Forall_forall in Hall. now apply Hall.
    + lia.
    + apply (IH m n); auto. lia.
Qed.

(** The loop invariant: everything left of [low] has started, nothing right
    of [high] has, and [ans] trails [low] by one. *)
Lemma search_spec low high ans :
  0 <= low -> high < Z.of_nat (List.length lyrics) -> low <= high + 1 ->
  ans = low - 1 ->
  (forall j l, JS.index lyrics j = Some l -> j < low -> started l) ->
  (forall j l, JS.index lyrics j = Some l -> high < j -> ~ started l) ->
  exists i, search lyrics t low high ans = Some i /\
    low - 1 <= i <= high /\
    forall j l, JS.index lyrics j = Some l -> (started l <-> j <= i).
Proof.
  funelim (search lyrics t low high ans); intros Hlow Hhigh Hlh Hans Hl Hr;
    match goal with
    | e : (_ <=? _) = false |- _ => pose proof (proj1 (Z.leb_gt _ _) e) as Hcmp
    | e : (_ <=? _) = true |- _ =>
        pose proof (proj1 (Z.leb_le _ _) e) as Hcmp;
        pose proof (Z.div_le_lower_bound (low + high) 2 low);
        pose proof (Z.div_le_upper_bound (low + high) 2 high)
    end.
  - (* the loop ends *)
    exists ans. split; [reflexivity|]. split; [lia|].
    intros j l Hj. split.
    + intros Hs. destruct (Z.le_gt_cases j ans) as [|Hgt]; [assumption|].
      exfalso. apply (Hr j l Hj); [lia|exact Hs].
    + intros Hle. apply (Hl j l Hj). lia.
  - (* unreachable: [mid] is inside the array *)
    exfalso.
    destruct (index_in_range lyrics ((low + high) / 2)) as [x Hx];
      [lia|congruence].
  - (* [lyrics[mid].time <= t] *)
    match goal with Hq : Qle_bool _ _ = true |- _ =>
      apply Qle_bool_iff in Hq; rename Hq into Hmid end.
    match goal with IH : _ -> _ -> _ -> _ -> _ -> _ -> exists _, _ |- _ =>
      destruct IH as [i [Hi [Hb Hc]]]; try lia end.
    + intros j l0 Hj Hlt. unfold started.
      apply Qle_trans with (time l); [|exact Hmid].
      apply (sorted_index j ((low + high) / 2)); auto. lia.
    + intros j l0 Hj Hlt. apply (Hr j l0 Hj). lia.
    + exists i. split; [exact Hi|]. split; [lia|exact Hc].
  - (* [lyrics[mid].time > t] *)
    assert (~ started l) as Hn.
    { unfold started. intros Hs. apply Qle_bool_iff in Hs. congruence. }
    match goal with IH : _ -> _ -> _ -> _ -> _ -> _ -> exists _, _ |- _ =>
      destruct IH as [i [Hi [Hb Hc]]]; try lia end.
    + exact Hl.
    + intros j l0 Hj Hlt Hs. apply Hn. unfold started.
      apply Qle_trans with (time l0); [|exact Hs].
      apply (sorted_index ((low + high) / 2) j); auto. lia.
    + exists i. split; [exact Hi|]. split; [lia|exact Hc].
Qed.

End CurrentLine.

Lemma linear_scan_last lyrics t i ans :
  let r := Spec.linear_scan lyrics t i ans in
  (r = ans /\ forall x, In x lyrics -> ~ started t x) \/
  (exists k x, r = i + Z.of_nat k /\ nth_error lyrics k = Some x /\
     started t x /\
     forall k' y, (k < k')%nat -> nth_error lyrics k' = Some y -> ~ started t y).
Proof.
  revert i ans. induction lyrics as [|x rest IH]; intros i ans; simpl.
  - left. split; [reflexivity|]. intros x [].
  - specialize (IH (i + 1) (if Qle_bool (Lyrics.time x) t then i else ans)).
    simpl in IH. destruct IH as [[Hr Hnone]|[k [y [Hr [Hk [Hy Hlast]]]]]].
    + destruct (Qle_bool (Lyrics.time x) t) eqn:E.
      * right. exists 0%nat, x. repeat split; [lia| |].
        -- now apply Qle_bool_iff.
        -- intros [|k'] y Hlt Hy; [lia|]. simpl in Hy.
           apply Hnone. eapply nth_error_In; eauto.
      * left. split; [exact Hr|]. intros y [<-|Hy]; [|now apply Hnone].
        unfold started. intros Hs. apply Qle_bool_iff in Hs. congruence.
    + right. exists (S k), y. repeat split; [lia|exact Hk|exact Hy|].
      intros [|k'] z Hlt Hz; [lia|]. simpl in Hz.
      apply (Hlast k' z); [lia|exact Hz].
Qed.

Lemma linear_scan_times l1 : forall l2 t i ans,
  map Lyrics.time l1 = map Lyrics.time l2 ->
  Spec.linear_scan l1 t i ans = Spec.linear_scan l2 t i ans.
Proof.
  induction l1 as [|x xs IH]; intros [|y ys] t i ans; simpl;
    try discriminate; [reflexivity|].
  intros [= Hx Hxs]. rewrite Hx. now apply IH.
Qed.

Lemma sorted_times l1 : forall l2,
  map Lyrics.time l1 = map Lyrics.time l2 ->
  Sorted Spec.by_time l1 -> Sorted Spec.by_time l2.
Proof.
  induction l1 as [|x xs IH]; intros [|y ys]; simpl; try discriminate;
    [constructor|].
  intros [= Hx Hxs] Hs. inversion Hs as [|? ? Hs' Hd]; subst.
  constructor; [now apply IH|].
  destruct xs as [|x' xs'], ys as [|y' ys']; try discriminate; constructor.
  injection Hxs as Hx' _. inversion Hd; subst.
  unfold Spec.by_time in *. now rewrite <- Hx, <- Hx'.
Qed.

Lemma currentIndex_spec lyrics t :
  Sorted Spec.by_time lyrics ->
  exists i, Lyrics.currentIndex lyrics t = Some i /\
    -1 <= i < Z.of_nat (List.length lyrics) /\
    forall j l, JS.index lyrics j = Some l -> (started t l <-> j <= i).
Proof.
  intros Hs. destruct lyrics as [|x xs].
  - exists (-1). split; [reflexivity|]. split; [simpl; lia|].
    intros j l Hj. apply index_lt in Hj. simpl in Hj. lia.
  - change (Lyrics.currentIndex (x :: xs) t)
      with (Lyrics.search (x :: xs) t 0
              (Z.of_nat (List.length (x :: xs)) - 1) (-1)).
    destruct (search_spec (x :: xs) t Hs 0
                (Z.of_nat (List.length (x :: xs)) - 1) (-1))
      as [i [Hi [Hb Hc]]]; try lia.
    + intros j l Hj Hlt. apply index_lt in Hj. lia.
    + intros j l Hj Hlt. apply index_lt in Hj. lia.
    + exists i. split; [exact Hi|]. split; [lia|exact Hc].
Qed.

Lemma currentIndex_naive lyrics t :
  Sorted Spec.by_time lyrics ->
  Lyrics.currentIndex lyrics t = Some (Spec.naive_index lyrics t).
Proof.
  intros Hs. destruct (currentIndex_spec lyrics t Hs) as [i [Hi [Hb Hc]]].
  rewrite Hi. f_equal. unfold Spec.naive_index.
  destruct (linear_scan_last lyrics t 0 (-1))
    as [[Hr Hnone]|[k [x [Hr [Hk [Hx Hlast]]]]]]; simpl in Hr; rewrite Hr.
  - destruct (Z.eq_dec i (-1)) as [|Hne]; [assumption|]. exfalso.
    destruct (index_in_range lyrics i) as [l Hl]; [lia|].
    apply (Hnone l).
    + apply index_Some in Hl as [_ Hl]. eapply nth_error_In; eauto.
    + apply (Hc i l Hl). lia.
  - assert (JS.index lyrics (Z.of_nat k) = Some x) as Hkx.
    { apply index_Some. split; [lia|]. now rewrite Nat2Z.id. }
    pose proof (proj1 (Hc _ _ Hkx) Hx) as Hle.
    destruct (Z.eq_dec i (Z.of_nat k)) as [|Hne]; [lia|]. exfalso.
    destruct (index_in_range lyrics i) as [l Hl]; [lia|].
    apply (Hlast (Z.to_nat i) l); [lia| |].
    + now apply index_Some in Hl as [_ Hl].
    + apply (Hc i l Hl). lia.
Qed.

(** C1. On lines sorted by time the lookup of the loop never fails and
    returns the largest index whose time is at most [t]: a line has started
    exactly when its index is at most the result.  The result is [-1] for no
    lines, for a [t] before the first line and for a negative [t] (times are
    not negative); it is the result of the plain scan; and it is read off
    the times alone, so no other field of a line takes part. *)
Theorem current_index_is_last_started (lyrics : list Lyrics.LyricLine) (t : Q) :
  Sorted Spec.by_time lyrics ->
  exists i,
    Lyrics.currentIndex lyrics t = Some i /\
    -1 <= i < Z.of_nat (List.length lyrics) /\
    (forall j l, JS.index lyrics j = Some l ->
       ((Lyrics.time l <= t)%Q <-> j <= i)) /\
    i = Spec.naive_index lyrics t /\
    (lyrics = [] -> i = -1) /\
    (forall l0, hd_error lyrics = Some l0 -> (t < Lyrics.time l0)%Q -> i = -1) /\
    ((t < 0)%Q -> (forall l, In l lyrics -> (0 <= Lyrics.time l)%Q) -> i = -1) /\
    (forall lyrics', map Lyrics.time lyrics' = map Lyrics.time lyrics ->
       Lyrics.currentIndex lyrics' t = Some i).
Proof.
  intros Hs. destruct (currentIndex_spec lyrics t Hs) as [i [Hi [Hb Hc]]].
  assert (forall l0, hd_error lyrics = Some l0 -> ~ started t l0 -> i = -1)
    as Hnone.
  { intros l0 Hhd Hn. destruct lyrics as [|x xs]; [discriminate|].
    injection Hhd as ->.
    assert (JS.index (l0 :: xs) 0 = Some l0) as H0 by reflexivity.
    destruct (Z.eq_dec i (-1)) as [|Hne]; [assumption|]. exfalso.
    apply Hn. apply (Hc 0 l0 H0). lia. }
  exists i. split; [exact Hi|]. split; [exact Hb|]. split; [exact Hc|].
  split; [|split; [|split; [|split]]].
  - pose proof (currentIndex_naive lyrics t Hs). congruence.
  - intros ->. simpl in Hb. lia.
  - intros l0 Hhd Hlt. apply (Hnone l0 Hhd).
    unfold started. now apply Qlt_not_le.
  - intros Hneg Hpos. destruct lyrics as [|x xs]; [simpl in Hb; lia|].
    apply (Hnone x); [reflexivity|]. unfold started. apply Qlt_not_le.
    apply Qlt_le_trans with 0%Q; [exact Hneg|]. apply Hpos. now left.
  - intros lyrics' Hmap.
    rewrite (currentIndex_naive lyrics' t).
    + f_equal. pose proof (currentIndex_naive lyrics t Hs) as Hn.
      rewrite Hi in Hn. injection Hn as ->.
      unfold Spec.naive_index. now apply linear_scan_times.
    + now apply (sorted_times lyrics).
Qed.

(** ** End-time inference and the merge of a manual segment *)

Lemma update_length {A} i (v : A) l :
  List.length (JS.update i v l) = List.length l.
Proof.
  revert i; induction l as [|x xs IH]; intros [|i]; simpl; auto.
Qed.

Lemma update_nth {A} i (v : A) l j :
  nth_error (JS.update i v l) j =
  if (i =? j)%nat && (i <? List.length l)%nat then Some v else nth_error l j.
Proof.
  revert i j; induction l as [|x xs IH]; intros i j.
  - replace (i <? List.length (@nil A))%nat with false
      by (symmetry; apply Nat.ltb_ge; simpl; lia).
    rewrite andb_false_r. now destruct i.
  - destruct i as [|i], j as [|j]; simpl; auto.
Qed.

Lemma infer_prefix segs k :
  (k <= List.length segs - 1)%nat ->
  let L := fold_left Player.infer_step (seq 0 k) segs in
  List.length L = List.length segs /\
  forall i s, nth_error segs i = Some s ->
    nth_error L i = Some (if (i <? k)%nat then Spec.inferred_at segs i s else s).
Proof.
  induction k as [|k IH]; intros Hk; cbn zeta.
  - split; [reflexivity|]. intros i s Hi. exact Hi.
  - rewrite seq_S, fold_left_app. simpl.
    destruct IH as [Hlen Hnth]; [lia|].
    set (L := fold_left Player.infer_step (seq 0 k) segs) in *.
    destruct (nth_error segs k) as [sk|] eqn:Esk;
      [|apply nth_error_None in Esk; lia].
    destruct (nth_error segs (S k)) as [n|] eqn:En;
      [|apply nth_error_None in En; lia].
    pose proof (Hnth k sk Esk) as Hk1. pose proof (Hnth (S k) n En) as Hk2.
    rewrite Nat.ltb_irrefl in Hk1.
    replace (S k <? k)%nat with false in Hk2 by (symmetry; apply Nat.ltb_ge; lia).
    unfold Player.infer_step. rewrite Hk1, Hk2.
    destruct (Player.end_unresolved sk) eqn:Eu.
    + split; [now rewrite update_length|].
      intros i s Hi. rewrite update_nth, Hlen.
      destruct (Nat.eqb_spec k i) as [<-|Hne].
      * replace (k <? List.length segs)%nat with true
          by (symmetry; apply Nat.ltb_lt; lia).
        simpl. replace (k <? S k)%nat with true
          by (symmetry; apply Nat.ltb_lt; lia).
        rewrite Esk in Hi. injection Hi as <-.
        unfold Spec.inferred_at. now rewrite En, Eu.
      * simpl. rewrite (Hnth i s Hi).
        destruct (Nat.ltb_spec i k), (Nat.ltb_spec i (S k)); auto; lia.
    + split; [exact Hlen|].
      intros i s Hi. rewrite (Hnth i s Hi).
      destruct (Nat.ltb_spec i k), (Nat.ltb_spec i (S k)); auto; try lia.
      assert (i = k) as -> by lia. rewrite Esk in Hi. injection Hi as <-.
      unfold Spec.inferred_at. now rewrite En, Eu.
Qed.

Lemma infer_ends_length segs :
  List.length (Player.infer_ends segs) = List.length segs.
Proof. apply (infer_prefix segs (List.length segs - 1)). lia. Qed.

Lemma infer_ends_nth segs i s :
  nth_error segs i = Some s ->
  nth_error (Player.infer_ends segs) i = Some (Spec.inferred_at segs i s).
Proof.
  intros Hi. unfold Player.infer_ends.
  destruct (infer_prefix segs (List.length segs - 1)) as [_ Hnth]; [lia|].
  rewrite (Hnth i s Hi).
  destruct (Nat.ltb_spec i (List.length segs - 1)); [reflexivity|].
  unfold Spec.inferred_at.
  destruct (nth_error segs (S i)) eqn:E; [|reflexivity].
  assert (nth_error segs (S i) <> None) as N by congruence.
  apply nth_error_Some in N. lia.
Qed.

Lemma start_le_total a b :
  Player.start_le a b = false -> Player.start_le b a = true.
Proof. unfold Player.start_le. intros H. apply Z.leb_gt in H. apply Z.leb_le. lia. Qed.

Lemma onWaveSelection_sorted a b s :
  Sorted Spec.by_start (Player.onWaveSelection a b s).
Proof.
  unfold Player.onWaveSelection.
  pose proof (sort_sorted Player.start_le start_le_total
                (s ++ [Player.manual_segment a b])) as H.
  eapply Sorted_ind with (P := Sorted Spec.by_start); [constructor| |exact H].
  intros x l _ IH Hd. constructor; [exact IH|].
  destruct Hd; constructor. unfold Spec.by_start.
  now apply Z.leb_le.
Qed.

Lemma onWaveSelection_perm a b s :
  Permutation (Player.onWaveSelection a b s) (s ++ [Player.manual_segment a b]).
Proof. apply sort_perm. Qed.

(** C2. The three-line sample parses to three segments that start at 0,
    4000 and 8500 ms; after end-time inference they end at 3999 and 8499 ms
    and the last end stays open. *)
Theorem sample_lrc_segments (ids : nat -> string) :
  let segs :=
    Player.onLrcFileInput ids
      ("[00:00.00] a" ++ Spec.nl ++ "[00:04.00] b" ++ Spec.nl ++ "[00:08.50] c") in
  map Player.start_ms segs = [0; 4000; 8500] /\
  map Player.end_ms segs = [Some 3999; Some 8499; None] /\
  map Player.text segs = ["a"; "b"; "c"].
Proof. cbv zeta. split; [|split]; reflexivity. Qed.

(** C3, as stated, fails for the merge: the one-line list of a parse has an
    open last end; after a selection behind it is merged, that segment is
    no longer last and its end is still absent. *)
Lemma merge_keeps_open_end :
  let s := Player.onLrcFileInput (fun _ => "line") "[00:00.00] a" in
  let merged := Player.onWaveSelection 5000 6000 s in
  Spec.ends_resolved s /\ ~ Spec.ends_resolved merged.
Proof.
  cbv zeta. split.
  - intros [|[|i]] s n Hs Hn; discriminate.
  - intros H.
    specialize (H 0%nat
      (Player.mkSegment "line" 0 None "a" None)
      (Player.manual_segment 5000 6000) eq_refl eq_refl eq_refl).
    discriminate.
Qed.

(** C3, amended.  After a parse, end-time inference gives every segment but
    the last whose end was absent, zero, or not after its start the end
    [start_ms] of its successor minus one, and leaves every other segment,
    the last one included, as it was.  The merge of a manual segment runs no
    inference: the merged list holds the old segments and the new one, each
    as it was, and is sorted by start time. *)
Theorem end_inference_at_parse_only :
  (forall segs i s,
     nth_error segs i = Some s ->
     exists s', nth_error (Player.infer_ends segs) i = Some s' /\
       Player.start_ms s' = Player.start_ms s /\
       match nth_error segs (S i) with
       | Some n =>
           (Player.end_unresolved s = true ->
              Player.end_ms s' = Some (Player.start_ms n - 1)) /\
           (Player.end_unresolved s = false -> s' = s)
       | None => s' = s
       end) /\
  (forall segs, Spec.ends_resolved (Player.infer_ends segs)) /\
  (forall a b s,
     Permutation (Player.onWaveSelection a b s)
                 (s ++ [Player.manual_segment a b]) /\
     Sorted Spec.by_start (Player.onWaveSelection a b s)).
Proof.
  split; [|split].
  - intros segs i s Hi. exists (Spec.inferred_at segs i s).
    split; [now apply infer_ends_nth|].
    unfold Spec.inferred_at. destruct (nth_error segs (S i)) as [n|].
    + destruct (Player.end_unresolved s); simpl;
        repeat split; auto; discriminate.
    + split; reflexivity.
  - intros segs i s' n' Hi Hn Hu.
    destruct (nth_error segs i) as [s|] eqn:Es.
    2:{ apply nth_error_None in Es. rewrite <- infer_ends_length in Es.
        apply nth_error_None in Es. congruence. }
    destruct (nth_error segs (S i)) as [n|] eqn:En.
    2:{ apply nth_error_None in En. rewrite <- infer_ends_length in En.
        apply nth_error_None in En. congruence. }
    rewrite (infer_ends_nth segs i s Es) in Hi. injection Hi as <-.
    rewrite (infer_ends_nth segs (S i) n En) in Hn. injection Hn as <-.
    assert (Player.start_ms (Spec.inferred_at segs (S i) n) = Player.start_ms n)
      as ->.
    { unfold Spec.inferred_at. destruct (nth_error segs (S (S i))); auto.
      destruct (Player.end_unresolved n); reflexivity. }
    revert Hu. unfold Spec.inferred_at. rewrite En.
    destruct (Player.end_unresolved s) eqn:Eu; [reflexivity|congruence].
  - intros a b s. split; [apply onWaveSelection_perm|apply onWaveSelection_sorted].
Qed.

(** C4, as stated, fails: the same selection committed twice gives two
    segments with the id [manual-1000]. *)
Lemma same_selection_twice_repeats_id :
  let s := Player.onWaveSelection 1000 2000 [] in
  let merged := Player.onWaveSelection 1000 2000 s in
  NoDup (map Player.id s) /\
  ~ (Sorted Spec.by_start merged /\ NoDup (map Player.id merged)).
Proof.
  cbv zeta. split.
  - repeat constructor. intros [].
  - intros [_ H]. inversion H as [|x l Hin _]; subst. apply Hin. now left.
Qed.

(** C4, amended.  The merged list is sorted by start time whatever the old
    list was, and it holds the old segments and the new one.  It has no id
    twice exactly when the old list had none twice and did not hold the id
    made from the start of the selection. *)
Theorem merged_list_sorted_and_ids (s : list Player.Segment) (startMs endMs : Q) :
  let merged := Player.onWaveSelection startMs endMs s in
  Sorted Spec.by_start merged /\
  Permutation merged (s ++ [Player.manual_segment startMs endMs]) /\
  (NoDup (map Player.id merged) <->
   NoDup (map Player.id s) /\
   ~ In (Player.id (Player.manual_segment startMs endMs)) (map Player.id s)).
Proof.
  cbv zeta.
  split; [apply onWaveSelection_sorted|].
  split; [apply onWaveSelection_perm|].
  assert (Permutation
            (map Player.id (Player.onWaveSelection startMs endMs s))
            (Player.id (Player.manual_segment startMs endMs) :: map Player.id s))
    as Hp.
  { rewrite (Permutation_map Player.id (onWaveSelection_perm startMs endMs s)).
    rewrite map_app. symmetry. apply Permutation_cons_append. }
  split.
  - intros Hnd. apply (Permutation_NoDup Hp) in Hnd.
    inversion Hnd; subst. split; assumption.
  - intros [Hnd Hnew]. apply (Permutation_NoDup (Permutation_sym Hp)).
    now constructor.
Qed.

(** ** The visible window *)

Lemma floor_div_bounds a b :
  0 < b -> (a / b) * b <= a < (a / b + 1) * b.
Proof.
  intros Hb. pose proof (Z.div_mod a b). pose proof (Z.mod_pos_bound a b).
  nia.
Qed.

Lemma skipn_firstn_beyond {A} (l : list A) n m :
  (List.length l <= m)%nat -> firstn n (skipn m l) = [].
Proof. intros H. rewrite skipn_all2 by exact H. now destruct n. Qed.

(** C5. For a scroll offset that is not negative, positive item and
    viewport heights and an overscan that is not negative, the first index
    is [max(0, floor(scrollTop / itemHeight) - overscan)] and the last is
    [min(itemCount - 1, floor((scrollTop + height) / itemHeight) + overscan)],
    the floors being the integers [q1] and [q2] below; the rendered items are
    those from the first to the last index.  With 1000 items of height 56, a
    viewport of 560, a scroll offset of 560 and an overscan of 5 the window
    is from 5 to 25, which covers the indices 5 through 20. *)
Theorem visible_range_formula {A} (items : list A)
  (itemHeight height overscan scrollTop : Z) :
  0 <= scrollTop -> 0 < itemHeight -> 0 < height -> 0 <= overscan ->
  let first := VirtualList.startIndex itemHeight (Some overscan) scrollTop in
  let last := VirtualList.endIndex items itemHeight height (Some overscan) scrollTop in
  (exists q1 q2,
     q1 * itemHeight <= scrollTop < (q1 + 1) * itemHeight /\
     q2 * itemHeight <= scrollTop + height < (q2 + 1) * itemHeight /\
     first = Z.max 0 (q1 - overscan) /\
     last = Z.min (Z.of_nat (List.length items) - 1) (q2 + overscan)) /\
  VirtualList.visible items itemHeight height (Some overscan) scrollTop
    = firstn (Z.to_nat (last - first + 1)) (skipn (Z.to_nat first) items) /\
  (forall its : list A, List.length its = 1000%nat ->
     VirtualList.startIndex 56 (Some 5) 560 = 5 /\
     VirtualList.endIndex its 56 560 (Some 5) 560 = 25 /\
     forall i, 5 <= i <= 20 ->
       VirtualList.startIndex 56 (Some 5) 560 <= i
         <= VirtualList.endIndex its 56 560 (Some 5) 560).
Proof.
  intros Hs Hi Hh Ho. cbv zeta.
  pose proof (floor_div_bounds scrollTop itemHeight Hi) as H1.
  pose proof (floor_div_bounds (scrollTop + height) itemHeight Hi) as H2.
  split; [|split].
  - exists (scrollTop / itemHeight), ((scrollTop + height) / itemHeight).
    repeat split; try lia.
  - unfold VirtualList.visible, JS.slice, JS.clip_index.
    set (first := VirtualList.startIndex itemHeight (Some overscan) scrollTop).
    set (last := VirtualList.endIndex items itemHeight height (Some overscan) scrollTop).
    set (n := Z.of_nat (List.length items)).
    assert (0 <= first) as Hf by (unfold first, VirtualList.startIndex; lia).
    assert (0 <= (scrollTop + height) / itemHeight) as Hq
      by (apply Z.div_pos; lia).
    assert (-1 <= last <= n - 1) as Hl.
    { unfold last, VirtualList.endIndex, VirtualList.itemCount,
        VirtualList.overscan_or_default. fold n. lia. }
    destruct (Z.ltb_spec first 0); [lia|].
    destruct (Z.ltb_spec (last + 1) 0); [lia|].
    destruct (Z.le_gt_cases first n) as [Hle|Hgt].
    + f_equal; f_equal; lia.
    + rewrite !skipn_firstn_beyond; [reflexivity| |]; unfold n in *; lia.
  - intros its Hlen.
    assert (VirtualList.endIndex its 56 560 (Some 5) 560 = 25) as He.
    { unfold VirtualList.endIndex, VirtualList.itemCount. rewrite Hlen.
      reflexivity. }
    rewrite He. change (VirtualList.startIndex 56 (Some 5) 560) with 5.
    repeat split; lia.
Qed.

(** ** The selection gesture *)

Lemma moves_keep_anchor left width duration xs : forall a b,
  exists b', fold_left (Waveform.onPointerMove left width duration) xs
               (Waveform.mkGesture true (Some (a, b)))
             = Waveform.mkGesture true (Some (a, b')).
Proof.
  induction xs as [|x xs IH]; intros a b; simpl.
  - now exists b.
  - apply IH.
Qed.

Lemma floor_min_le_floor_max a b : Qfloor (Qmin a b) <= Qfloor (Qmax a b).
Proof.
  apply Qfloor_resp_le. apply Qle_trans with a.
  - apply Q.le_min_l.
  - apply Q.le_max_l.
Qed.

(** C8. A release while a drag is on commits [(min(a, b), max(a, b))] of the
    anchor time [a] and the release time [b], whatever their order; a whole
    drag keeps the time of the press as its anchor.  The segment made of the
    committed pair is in the merged list and its start is at most its end.
    A drag from pixel 10 to pixel 5 on a 300 pixel wide canvas over a buffer
    of 10000 ms commits a segment from 166 ms to 333 ms. *)
Theorem selection_is_ordered (left width : Q) (duration : option Q)
  (x0 x1 : Q) (xs : list Q) (s : list Player.Segment) :
  let toMs := Waveform.toMs left width duration in
  (forall a b0,
     snd (Waveform.onPointerUp left width duration
            (Waveform.mkGesture true (Some (a, b0))) x1)
     = Some (Qmin a (toMs x1), Qmax a (toMs x1))) /\
  snd (Waveform.drag left width duration x0 xs x1)
    = Some (Qmin (toMs x0) (toMs x1), Qmax (toMs x0) (toMs x1)) /\
  (forall a b,
     let seg := Player.manual_segment (Qmin a b) (Qmax a b) in
     In seg (Waveform.commit s (Qmin a b, Qmax a b)) /\
     exists e, Player.end_ms seg = Some e /\ Player.start_ms seg <= e) /\
  (exists a b,
     snd (Waveform.drag 0 300 (Some 10%Q) 10 [] 5) = Some (a, b) /\
     Player.start_ms (Player.manual_segment a b) = 166 /\
     Player.end_ms (Player.manual_segment a b) = Some 333).
Proof.
  cbv zeta. split; [|split; [|split]].
  - reflexivity.
  - unfold Waveform.drag, Waveform.onPointerDown.
    destruct (moves_keep_anchor left width duration xs
                (Waveform.toMs left width duration x0)
                (Waveform.toMs left width duration x0)) as [b' ->].
    reflexivity.
  - intros a b. split.
    + unfold Waveform.commit. simpl fst. simpl snd.
      apply (Permutation_in (l := s ++ [Player.manual_segment (Qmin a b) (Qmax a b)])).
      * symmetry. apply onWaveSelection_perm.
      * apply in_or_app. right. now left.
    + exists (Qfloor (Qmax a b)). split; [reflexivity|].
      apply floor_min_le_floor_max.
  - eexists _, _. split; [reflexivity|]. split; reflexivity.
Qed.

(** ** The peak loop of the waveform *)

Lemma skipn_nth_error {A} (l : list A) k v :
  nth_error l k = Some v -> skipn k l = v :: skipn (S k) l.
Proof.
  revert k; induction l as [|x xs IH]; intros [|k]; simpl; try discriminate.
  - now intros [= ->].
  - intros H. now rewrite (IH k H).
Qed.

Lemma column_loop_fold ch i step : forall n j mn mx,
  0 <= i * step + j ->
  Waveform.column_loop ch i step n j mn mx
  = Spec.min_max_from (mn, mx) (firstn n (skipn (Z.to_nat (i * step + j)) ch)).
Proof.
  induction n as [|n IH]; intros j mn mx Hj; [reflexivity|].
  cbn [Waveform.column_loop]. cbv zeta.
  rewrite Z.geb_leb. destruct (Z.leb_spec (Z.of_nat (List.length ch)) (i * step + j)).
  - rewrite skipn_all2 by lia. reflexivity.
  - destruct (index_in_range ch (i * step + j)) as [x Hx]; [lia|].
    rewrite Hx. apply index_Some in Hx as [_ Hv].
    rewrite (skipn_nth_error _ _ _ Hv). simpl firstn.
    rewrite IH by lia.
    replace (Z.to_nat (i * step + (j + 1))) with (S (Z.to_nat (i * step + j)))
      by lia.
    reflexivity.
Qed.

Lemma Qltb_true a b : JS.Qltb a b = true -> (a < b)%Q.
Proof.
  unfold JS.Qltb. intros H. apply Qnot_le_lt. intros Hle.
  apply Qle_bool_iff in Hle. rewrite Hle in H. discriminate.
Qed.

Lemma Qltb_false a b : JS.Qltb a b = false -> (b <= a)%Q.
Proof.
  unfold JS.Qltb. intros H. apply Qle_bool_iff.
  now destruct (Qle_bool b a).
Qed.

Lemma min_max_from_bounds c : forall mn mx,
  let p := Spec.min_max_from (mn, mx) c in
  (fst p <= mn)%Q /\ (mx <= snd p)%Q /\
  (forall v, In v c -> (fst p <= v <= snd p)%Q) /\
  (fst p = mn \/ In (fst p) c) /\ (snd p = mx \/ In (snd p) c).
Proof.
  induction c as [|x c IH]; intros mn mx; cbv zeta.
  - simpl. repeat split; try apply Qle_refl; auto; contradiction.
  - unfold Spec.min_max_from. simpl fold_left.
    specialize (IH (fst (Spec.min_max_step (mn, mx) x))
                   (snd (Spec.min_max_step (mn, mx) x))).
    cbv zeta in IH. rewrite <- surjective_pairing in IH.
    fold (Spec.min_max_from (Spec.min_max_step (mn, mx) x) c) in *.
    set (p := Spec.min_max_from (Spec.min_max_step (mn, mx) x) c) in *.
    destruct IH as [H1 [H2 [H3 [H4 H5]]]].
    unfold Spec.min_max_step in H1, H2, H4, H5. simpl fst in *. simpl snd in *.
    assert ((fst p <= mn)%Q /\ (fst p <= x)%Q) as [Hmn Hx1].
    { destruct (JS.Qltb x mn) eqn:E.
      - apply Qltb_true in E. split; [|exact H1].
        apply Qle_trans with x; [exact H1|now apply Qlt_le_weak].
      - apply Qltb_false in E. split; [exact H1|].
        now apply Qle_trans with mn. }
    assert ((mx <= snd p)%Q /\ (x <= snd p)%Q) as [Hmx Hx2].
    { destruct (JS.Qltb mx x) eqn:E.
      - apply Qltb_true in E. split; [|exact H2].
        apply Qle_trans with x; [now apply Qlt_le_weak|exact H2].
      - apply Qltb_false in E. split; [exact H2|].
        now apply Qle_trans with mx. }
    repeat split; auto.
    + destruct H as [<-|Hin]; [exact Hx1|now apply H3].
    + destruct H as [<-|Hin]; [exact Hx2|now apply H3].
    + destruct H4 as [H4|H4]; [|right; now right].
      destruct (JS.Qltb x mn); [right; left; now symmetry|now left].
    + destruct H5 as [H5|H5]; [|right; now right].
      destruct (JS.Qltb mx x); [right; left; now symmetry|now left].
Qed.

(** C7, as stated, fails: on 599 samples and a canvas 300 pixels wide the
    chunk of [ceil(599 / 300) = 2] samples of column 0 holds the samples 0
    and 1, while the loop, whose step is [floor(599 / 300) = 1], gives
    column 0 the first sample alone. *)
Lemma peaks_step_is_floor :
  let ch := map (fun k => Z.of_nat k # 1000) (seq 0 599) in
  let w := Waveform.canvas_width 300 1 in
  let c := Spec.chunk ch (Spec.ceil_div (Z.of_nat (List.length ch)) w) 0 in
  w = 300 /\
  c = [0 # 1000; 1 # 1000] /\
  nth_error (Waveform.peaks ch w) 0 = Some (0 # 1000, 0 # 1000) /\
  ~ (exists p, nth_error (Waveform.peaks ch w) 0 = Some p /\ Spec.is_min_max c p).
Proof.
  cbv zeta. split; [reflexivity|]. split; [reflexivity|].
  assert (nth_error
            (Waveform.peaks (map (fun k => Z.of_nat k # 1000) (seq 0 599))
               (Waveform.canvas_width 300 1)) 0
          = Some (0 # 1000, 0 # 1000)) as E by (vm_compute; reflexivity).
  split; [exact E|].
  intros [p [Hp [Hb _]]]. rewrite E in Hp. injection Hp as <-.
  destruct (Hb (1 # 1000)) as [_ Hle].
  - vm_compute. right. now left.
  - revert Hle. unfold Qle. simpl. lia.
Qed.

(** C7, amended.  With [step = max(1, floor(sampleCount / w))], column [i]
    of the [w] columns is computed from the samples at the indices
    [i * step], ..., [i * step + step - 1] that exist: from [(1, -1)] the
    minimum is lowered and the maximum raised by every sample of the chunk.
    For a chunk that is not empty and whose samples lie in [[-1, 1]] that is
    the least and the greatest sample of the chunk; for an empty chunk it
    is [(1, -1)]. *)
Theorem peaks_by_floor_step (ch : list Q) (w i : Z) :
  0 < w -> 0 <= i < w ->
  let step := Z.max 1 (Z.of_nat (List.length ch) / w) in
  let c := Spec.chunk ch step i in
  List.length (Waveform.peaks ch w) = Z.to_nat w /\
  nth_error (Waveform.peaks ch w) (Z.to_nat i)
    = Some (Spec.min_max_from (1, -1)%Q c) /\
  (c = [] -> Spec.min_max_from (1, -1)%Q c = (1, -1)%Q) /\
  (c <> [] -> (forall v, In v c -> (-1 <= v <= 1)%Q) ->
   Spec.is_min_max c (Spec.min_max_from (1, -1)%Q c)).
Proof.
  intros Hw Hi. cbv zeta.
  split; [|split; [|split]].
  - unfold Waveform.peaks. now rewrite length_map, length_seq.
  - unfold Waveform.peaks. rewrite nth_error_map, nth_error_seq.
    replace (Z.to_nat i <? Z.to_nat w)%nat with true
      by (symmetry; apply Nat.ltb_lt; lia).
    simpl option_map. f_equal.
    rewrite column_loop_fold by (unfold Waveform.step_of; nia).
    unfold Spec.chunk, Waveform.step_of.
    rewrite Z2Nat.id by lia. now rewrite Z.add_0_r.
  - intros ->. reflexivity.
  - intros Hne Hrange.
    destruct (min_max_from_bounds (Spec.chunk ch (Z.max 1 (Z.of_nat (List.length ch) / w)) i)
                1%Q (-1)%Q) as [H1 [H2 [H3 [H4 H5]]]].
    set (c := Spec.chunk ch (Z.max 1 (Z.of_nat (List.length ch) / w)) i) in *.
    set (p := Spec.min_max_from (1, -1)%Q c) in *.
    destruct c as [|v0 c'] eqn:Ec; [congruence|]. rewrite <- Ec in *.
    assert (In v0 c) as Hv0 by (rewrite Ec; now left).
    split; [exact H3|]. split.
    + destruct H4 as [H4|H4]; [|exists (fst p); split; [exact H4|reflexivity]].
      exists v0. split; [exact Hv0|]. rewrite H4.
      apply Qle_antisym; [now apply Hrange|].
      rewrite <- H4. now apply H3.
    + destruct H5 as [H5|H5]; [|exists (snd p); split; [exact H5|reflexivity]].
      exists v0. split; [exact Hv0|]. rewrite H5.
      apply Qle_antisym; [|now apply Hrange].
      rewrite <- H5. now apply H3.
Qed.

(** ** The LRC parser *)

Section Parser.

Import Lyrics Spec.

Lemma append_assoc (a b c : string) : (a ++ b) ++ c = a ++ (b ++ c).
Proof. induction a as [|x a IH]; simpl; [reflexivity|now rewrite IH]. Qed.

Lemma take_digits_stop n d c r :
  all_digits d = true -> (String.length d <= n)%nat -> JS.is_digit c = false ->
  take_digits n (d ++ String c r) = (d, String c r).
Proof.
  revert d; induction n as [|n IH]; intros [|x d] Hd Hn Hc; simpl in *;
    try lia; try reflexivity.
  - now rewrite Hc.
  - apply andb_prop in Hd as [Hx Hd]. rewrite Hx.
    rewrite IH by (auto; lia). reflexivity.
Qed.

Lemma take_digits_all d r :
  all_digits d = true -> take_digits (String.length d) (d ++ r) = (d, r).
Proof.
  induction d as [|x d IH]; simpl; intros Hd.
  - now destruct r.
  - apply andb_prop in Hd as [Hx Hd]. rewrite Hx, IH by exact Hd. reflexivity.
Qed.

Lemma render_onto st r :
  render st ++ r
  = String "[" (st_min st ++ String ":" (st_sec st ++
      match st_frac st with
      | Some f => String "." (f ++ String "]" r)
      | None => String "]" r
      end)).
Proof.
  unfold render, seconds_text.
  destruct (st_frac st); repeat (rewrite !append_assoc; simpl); reflexivity.
Qed.

Lemma match_here_render st r :
  stamp_ok st = true ->
  match_here (render st ++ r) = Some (st_min st, seconds_text st, r).
Proof.
  unfold stamp_ok. intros H.
  repeat (apply andb_prop in H as [H ?]).
  repeat match goal with
         | E : (_ <=? _)%nat = true |- _ => apply Nat.leb_le in E
         | E : (_ =? _)%nat = true |- _ => apply Nat.eqb_eq in E
         end.
  rewrite render_onto. unfold match_here. cbn [expect Ascii.eqb Bool.eqb].
  rewrite take_digits_stop by (auto; reflexivity).
  destruct (st_min st) as [|m0 m] eqn:Em; [simpl in *; lia|]. rewrite <- Em.
  cbn [expect Ascii.eqb Bool.eqb].
  match goal with E : String.length (st_sec st) = 2%nat |- _ =>
    rewrite <- E at 1; rewrite take_digits_all by assumption; rewrite E end.
  cbn [Nat.eqb]. unfold seconds_text.
  destruct (st_frac st) as [f|]; cbn [match_fraction Ascii.eqb Bool.eqb].
  - match goal with E : _ && _ && _ = true |- _ =>
      repeat (apply andb_prop in E as [E ?]) end.
    repeat match goal with
           | E : (_ <=? _)%nat = true |- _ => apply Nat.leb_le in E
           end.
    rewrite take_digits_stop by (auto; reflexivity).
    destruct f as [|f0 f]; [simpl in *; lia|].
    cbn [expect Ascii.eqb Bool.eqb]. reflexivity.
  - reflexivity.
Qed.

Lemma exec_render st r :
  stamp_ok st = true ->
  exec (render st ++ r) = Some (st_min st, seconds_text st, r).
Proof.
  intros H. pose proof (match_here_render st r H) as Hm.
  rewrite render_onto in *. cbn [exec]. now rewrite Hm.
Qed.

(** The two loops, unfolded once. *)
Lemma exec_times_eq s :
  exec_times s =
  match exec s with
  | Some (m1, m2, rest) =>
      (inject_Z (JS.parseInt m1) * 60 + JS.parseFloat m2)%Q :: exec_times rest
  | None => []
  end.
Proof.
  funelim (exec_times s);
    match goal with E : exec _ = _ |- _ => now rewrite E end.
Qed.

Lemma remove_stamps_unfold s :
  remove_stamps s =
  match s with
  | EmptyString => EmptyString
  | String c s' =>
      match match_here s with
      | Some (_, _, rest) => remove_stamps rest
      | None => String c (remove_stamps s')
      end
  end.
Proof.
  funelim (remove_stamps s); [reflexivity| |];
    match goal with E : match_here _ = _ |- _ => now rewrite E end.
Qed.

Lemma remove_stamps_eq c s :
  remove_stamps (String c s) =
  match match_here (String c s) with
  | Some (_, _, rest) => remove_stamps rest
  | None => String c (remove_stamps s)
  end.
Proof. exact (remove_stamps_unfold (String c s)). Qed.

Lemma exec_None_cons c s :
  exec (String c s) = None -> match_here (String c s) = None /\ exec s = None.
Proof.
  cbn [exec]. destruct (match_here (String c s)); [discriminate|auto].
Qed.

Lemma remove_stamps_none s : exec s = None -> remove_stamps s = s.
Proof.
  induction s as [|c s IH]; intros H; [reflexivity|].
  apply exec_None_cons in H as [Hm He].
  rewrite remove_stamps_eq, Hm, IH by exact He. reflexivity.
Qed.

Lemma exec_times_line stamps txt :
  forallb stamp_ok stamps = true ->
  exec_times (line stamps txt) = (map stamp_time stamps ++ exec_times txt)%list.
Proof.
  induction stamps as [|st sts IH]; intros H; [reflexivity|].
  change (line (st :: sts) txt) with (render st ++ line sts txt).
  cbn [forallb] in H. apply andb_prop in H as [Hst Hsts].
  rewrite exec_times_eq, exec_render by exact Hst.
  now rewrite IH.
Qed.

Lemma remove_stamps_line stamps txt :
  forallb stamp_ok stamps = true ->
  remove_stamps (line stamps txt) = remove_stamps txt.
Proof.
  induction stamps as [|st sts IH]; intros H; [reflexivity|].
  change (line (st :: sts) txt) with (render st ++ line sts txt).
  cbn [forallb] in H. apply andb_prop in H as [Hst Hsts].
  pose proof (match_here_render st (line sts txt) Hst) as Hm.
  rewrite render_onto in *. rewrite remove_stamps_eq, Hm. now apply IH.
Qed.

Lemma trim_not_empty c s :
  JS.is_space c = false -> JS.is_empty (JS.trim (String c s)) = false.
Proof.
  intros Hc. unfold JS.trim. cbn [JS.trimStart]. rewrite Hc.
  cbn [JS.trimEnd]. rewrite Hc. now destruct (JS.trimEnd s).
Qed.

Lemma has_lf_app a b : has_lf (a ++ b) = has_lf a || has_lf b.
Proof.
  induction a as [|c a IH]; simpl; [reflexivity|].
  now rewrite IH, orb_assoc.
Qed.

Lemma digit_not_lf c : JS.is_digit c = true -> Ascii.eqb c JS.LF = false.
Proof.
  intros H. destruct (Ascii.eqb_spec c JS.LF) as [->|]; [discriminate|reflexivity].
Qed.

Lemma all_digits_no_lf d : all_digits d = true -> has_lf d = false.
Proof.
  induction d as [|c d IH]; simpl; [reflexivity|]. intros H.
  apply andb_prop in H as [Hc Hd]. now rewrite digit_not_lf, IH.
Qed.

Lemma render_no_lf st : stamp_ok st = true -> has_lf (render st) = false.
Proof.
  unfold stamp_ok. intros H. repeat (apply andb_prop in H as [H ?]).
  unfold render, seconds_text. rewrite !has_lf_app.
  rewrite (all_digits_no_lf (st_min st)), (all_digits_no_lf (st_sec st))
    by assumption.
  destruct (st_frac st) as [f|]; [|reflexivity].
  match goal with E : _ && _ && _ = true |- _ =>
    repeat (apply andb_prop in E as [E ?]) end.
  simpl. rewrite (all_digits_no_lf f) by assumption. reflexivity.
Qed.

Lemma line_no_lf stamps txt :
  forallb stamp_ok stamps = true -> has_lf txt = false ->
  has_lf (line stamps txt) = false.
Proof.
  induction stamps as [|st sts IH]; intros H Ht; [exact Ht|].
  change (line (st :: sts) txt) with (render st ++ line sts txt).
  cbn [forallb] in H. apply andb_prop in H as [Hst Hsts].
  now rewrite has_lf_app, render_no_lf, IH.
Qed.

Lemma starts_with_lf s : JS.starts_with JS.LF s = true -> has_lf s = true.
Proof.
  destruct s as [|c s]; cbn [JS.starts_with has_lf]; [discriminate|].
  intros H. rewrite Ascii.eqb_sym in H. now rewrite H.
Qed.

Lemma split_lines_no_lf s : has_lf s = false -> JS.split_lines s = [s].
Proof.
  induction s as [|c s IH]; cbn [has_lf JS.split_lines]; [reflexivity|].
  intros H. apply orb_false_elim in H as [Hc Hs]. rewrite Hc.
  destruct (JS.starts_with JS.LF s) eqn:E.
  - apply starts_with_lf in E. congruence.
  - rewrite andb_false_r, IH by exact Hs. reflexivity.
Qed.

Lemma split_lines_first a : has_lf a = false -> forall b,
  JS.split_lines (a ++ String JS.LF b) = chomp_cr a :: JS.split_lines b.
Proof.
  induction a as [|c a IH]; intros H b.
  - reflexivity.
  - cbn [has_lf] in H. apply orb_false_elim in H as [Hc Ha].
    change (String c a ++ String JS.LF b) with (String c (a ++ String JS.LF b)).
    cbn [JS.split_lines]. rewrite Hc, (IH Ha b).
    destruct a as [|d a'].
    + cbn [append JS.starts_with chomp_cr]. rewrite Ascii.eqb_refl, andb_true_r.
      destruct (Ascii.eqb c JS.CR); reflexivity.
    + cbn [append JS.starts_with]. cbn [has_lf] in Ha.
      apply orb_false_elim in Ha as [Hd _].
      rewrite (Ascii.eqb_sym JS.LF d), Hd, andb_false_r. reflexivity.
Qed.

Lemma split_lines_app_lf a : exists p ps, forall b,
  JS.split_lines (a ++ String JS.LF b) = ((p :: ps) ++ JS.split_lines b)%list.
Proof.
  induction a as [|c a [p [ps IH]]].
  - exists EmptyString, []. reflexivity.
  - assert (forall b, JS.starts_with JS.LF (a ++ String JS.LF b)
                      = JS.starts_with JS.LF (a ++ String JS.LF EmptyString))
      as Hs by (intros b; destruct a; reflexivity).
    destruct (Ascii.eqb c JS.LF) eqn:Ec;
      [|destruct (Ascii.eqb c JS.CR
                  && JS.starts_with JS.LF (a ++ String JS.LF EmptyString)) eqn:E].
    + exists EmptyString, (p :: ps). intros b.
      change (String c a ++ String JS.LF b) with (String c (a ++ String JS.LF b)).
      cbn [JS.split_lines]. now rewrite Ec, IH.
    + exists p, ps. intros b.
      change (String c a ++ String JS.LF b) with (String c (a ++ String JS.LF b)).
      cbn [JS.split_lines]. rewrite Ec, Hs, E. apply IH.
    + exists (String c p), ps. intros b.
      change (String c a ++ String JS.LF b) with (String c (a ++ String JS.LF b)).
      cbn [JS.split_lines]. rewrite Ec, Hs, E, IH. reflexivity.
Qed.

Lemma chomp_cr_prefix s : exists x, s = chomp_cr s ++ x.
Proof.
  induction s as [|c s [x IH]].
  - now exists EmptyString.
  - cbn [chomp_cr]. destruct s as [|d s'].
    + destruct (Ascii.eqb c JS.CR).
      * now exists (String c EmptyString).
      * now exists EmptyString.
    + exists x. cbn [append]. now rewrite <- IH.
Qed.

Lemma take_digits_app n : forall a b d r,
  take_digits n a = (d, r) -> r <> EmptyString ->
  take_digits n (a ++ b) = (d, r ++ b).
Proof.
  induction n as [|n IH]; intros [|c a] b d r; cbn [take_digits append].
  - intros [= <- <-] Hr. congruence.
  - intros [= <- <-] _. reflexivity.
  - intros [= <- <-] Hr. congruence.
  - destruct (JS.is_digit c).
    + destruct (take_digits n a) as [d' r'] eqn:E.
      intros [= <- <-] Hr. now rewrite (IH a b d' r' E Hr).
    + intros [= <- <-] _. reflexivity.
Qed.

Lemma expect_app c a b r :
  expect c a = Some r -> expect c (a ++ b) = Some (r ++ b).
Proof.
  destruct a as [|d a]; cbn [expect append]; [discriminate|].
  destruct (Ascii.eqb c d); [now intros [= <-]|discriminate].
Qed.

Lemma expect_not_empty c a r : expect c a = Some r -> a <> EmptyString.
Proof. destruct a; [discriminate|congruence]. Qed.

Lemma match_fraction_app a b f r :
  match_fraction a = Some (f, r) -> match_fraction (a ++ b) = Some (f, r ++ b).
Proof.
  destruct a as [|c a]; cbn [match_fraction append]; [discriminate|].
  destruct (Ascii.eqb c ".").
  - destruct (take_digits 3 a) as [d r'] eqn:E.
    destruct d as [|d0 d]; [discriminate|].
    destruct (expect "]" r') as [r''|] eqn:E'; [|discriminate].
    intros [= <- <-].
    rewrite (take_digits_app 3 a b _ r' E (expect_not_empty _ _ _ E')).
    now rewrite (expect_app _ _ b _ E').
  - destruct (Ascii.eqb c "]"); [now intros [= <- <-]|discriminate].
Qed.

Lemma match_fraction_not_empty a f r :
  match_fraction a = Some (f, r) -> a <> EmptyString.
Proof. destruct a; [discriminate|congruence]. Qed.

Lemma match_here_app a b m1 m2 r :
  match_here a = Some (m1, m2, r) ->
  match_here (a ++ b) = Some (m1, m2, r ++ b).
Proof.
  unfold match_here.
  destruct (expect "[" a) as [s1|] eqn:E1; [|discriminate].
  rewrite (expect_app _ _ b _ E1).
  destruct (take_digits 2 s1) as [d1 s2] eqn:E2.
  destruct d1 as [|c1 d1]; [discriminate|].
  destruct (expect ":" s2) as [s3|] eqn:E3; [|discriminate].
  rewrite (take_digits_app 2 s1 b _ s2 E2 (expect_not_empty _ _ _ E3)).
  rewrite (expect_app _ _ b _ E3).
  destruct (take_digits 2 s3) as [sec s4] eqn:E4.
  destruct (String.length sec =? 2)%nat eqn:El; [|discriminate].
  destruct (match_fraction s4) as [[f rest]|] eqn:E5; [|discriminate].
  intros [= <- <- <-].
  rewrite (take_digits_app 2 s3 b _ s4 E4 (match_fraction_not_empty _ _ _ E5)).
  rewrite El. now rewrite (match_fraction_app _ b _ _ E5).
Qed.

Lemma exec_app_none a b : exec (a ++ b) = None -> exec a = None.
Proof.
  induction a as [|c a IH]; [reflexivity|].
  change (String c a ++ b) with (String c (a ++ b)). intros H.
  apply exec_None_cons in H as [Hm He]. cbn [exec].
  destruct (match_here (String c a)) as [[[m1 m2] r]|] eqn:E.
  - apply (match_here_app _ b) in E.
    change (String c a ++ b) with (String c (a ++ b)) in E. congruence.
  - now apply IH.
Qed.

Lemma line_entries_no_stamp s : exec s = None -> line_entries s = [].
Proof.
  intros H. unfold line_entries. rewrite exec_times_eq, H.
  destruct (JS.is_empty (JS.trim s)); [reflexivity|].
  now destruct (JS.is_empty (JS.trim (remove_stamps s))).
Qed.

Lemma line_entries_blank_residue s :
  JS.trim (remove_stamps s) = EmptyString -> line_entries s = [].
Proof.
  intros H. unfold line_entries. rewrite H.
  now destruct (JS.is_empty (JS.trim s)).
Qed.

(** What [parseLRC] makes of a text whose first lines are [before]. *)
Lemma parseLRC_after before : exists pre, forall rest,
  parseLRC (before ++ Spec.nl ++ rest)
  = JS.sort time_le (pre ++ flat_map line_entries (JS.split_lines rest))%list.
Proof.
  destruct (split_lines_app_lf before) as [p [ps H]].
  exists (flat_map line_entries (p :: ps)). intros rest.
  unfold parseLRC. change (Spec.nl ++ rest) with (String JS.LF rest).
  rewrite H, flat_map_app.
  now destruct before.
Qed.

Lemma parseLRC_first l rest :
  has_lf l = false -> line_entries (chomp_cr l) = [] ->
  parseLRC (l ++ Spec.nl ++ rest) = parseLRC rest.
Proof.
  intros Hl He. unfold parseLRC.
  change (Spec.nl ++ rest) with (String JS.LF rest).
  rewrite (split_lines_first l Hl rest). cbn [flat_map]. rewrite He.
  cbn [app]. destruct rest as [|c r].
  - now destruct l.
  - now destruct l.
Qed.

(** A line that adds no entry can be taken out of the text. *)
Lemma parseLRC_drop_line before l rest :
  has_lf l = false -> line_entries (chomp_cr l) = [] ->
  parseLRC (before ++ Spec.nl ++ l ++ Spec.nl ++ rest)
  = parseLRC (before ++ Spec.nl ++ rest).
Proof.
  intros Hl He. destruct (parseLRC_after before) as [pre H].
  rewrite !H. change (Spec.nl ++ rest) with (String JS.LF rest).
  rewrite (split_lines_first l Hl rest). cbn [flat_map]. now rewrite He.
Qed.

(** A line is skipped in exactly two cases. *)
Lemma trim_empty_no_match s : JS.is_empty (JS.trim s) = true -> exec s = None.
Proof.
  induction s as [|c s IH]; [reflexivity|]. intros H.
  destruct (JS.is_space c) eqn:Ec.
  - unfold JS.trim in H. cbn [JS.trimStart] in H. rewrite Ec in H.
    cbn [exec]. unfold match_here. cbn [expect].
    destruct (Ascii.eqb_spec "[" c) as [<-|_]; [discriminate|].
    now apply IH.
  - rewrite (trim_not_empty c s Ec) in H. discriminate.
Qed.

Lemma line_entries_nil l :
  line_entries l = [] <->
  exec l = None \/ JS.trim (remove_stamps l) = EmptyString.
Proof.
  split.
  - unfold line_entries.
    destruct (JS.is_empty (JS.trim l)) eqn:E1;
      [intros _; left; now apply trim_empty_no_match|].
    destruct (JS.trim (remove_stamps l)) as [|c r]; [intros _; now right|].
    cbn [JS.is_empty]. intros H. apply map_eq_nil in H.
    rewrite exec_times_eq in H.
    destruct (exec l) as [[[m1 m2] rest]|]; [discriminate|now left].
  - intros [H|H];
      [now apply line_entries_no_stamp|now apply line_entries_blank_residue].
Qed.

(** The parser without its guard on the empty text, which changes nothing. *)
Lemma parseLRC_eq text :
  parseLRC text = JS.sort time_le (flat_map line_entries (JS.split_lines text)).
Proof. destruct text; reflexivity. Qed.

(** The carriage return that [split] takes off a line is white space behind
    the text of the line. *)
Lemma chomp_cr_cons c a d s :
  chomp_cr (String c (a ++ String d s)) = String c (chomp_cr (a ++ String d s)).
Proof. destruct a; reflexivity. Qed.

Lemma chomp_cr_onto a d s :
  chomp_cr (a ++ String d s) = a ++ chomp_cr (String d s).
Proof.
  induction a as [|c a IH]; [reflexivity|].
  change (String c a ++ String d s) with (String c (a ++ String d s)).
  rewrite chomp_cr_cons, IH. reflexivity.
Qed.

Lemma chomp_cr_keeps c s :
  Ascii.eqb c JS.CR = false -> chomp_cr (String c s) = String c (chomp_cr s).
Proof.
  intros Hc. destruct s as [|d s]; cbn [chomp_cr]; [now rewrite Hc|reflexivity].
Qed.

Lemma chomp_cr_render st r :
  chomp_cr (render st ++ r) = render st ++ chomp_cr r.
Proof.
  rewrite !render_onto.
  destruct (st_frac st) as [f|].
  - rewrite chomp_cr_cons, chomp_cr_onto, chomp_cr_cons, chomp_cr_onto,
      chomp_cr_cons, chomp_cr_onto.
    now rewrite (chomp_cr_keeps "]").
  - rewrite chomp_cr_cons, chomp_cr_onto, chomp_cr_cons, chomp_cr_onto.
    now rewrite (chomp_cr_keeps "]").
Qed.

Lemma chomp_cr_line stamps txt :
  chomp_cr (line stamps txt) = line stamps (chomp_cr txt).
Proof.
  induction stamps as [|st sts IH]; [reflexivity|].
  change (line (st :: sts) txt) with (render st ++ line sts txt).
  change (line (st :: sts) (chomp_cr txt))
    with (render st ++ line sts (chomp_cr txt)).
  now rewrite chomp_cr_render, IH.
Qed.

Lemma trimEnd_app_space s c :
  JS.is_space c = true -> JS.trimEnd (s ++ String c EmptyString) = JS.trimEnd s.
Proof.
  intros Hc. induction s as [|x s IH].
  - cbn [append JS.trimEnd]. now rewrite Hc.
  - change (String x s ++ String c EmptyString)
      with (String x (s ++ String c EmptyString)).
    cbn [JS.trimEnd]. now rewrite IH.
Qed.

Lemma trim_app_space s c :
  JS.is_space c = true -> JS.trim (s ++ String c EmptyString) = JS.trim s.
Proof.
  intros Hc. unfold JS.trim. induction s as [|x s IH].
  - cbn [append JS.trimStart]. now rewrite Hc.
  - change (String x s ++ String c EmptyString)
      with (String x (s ++ String c EmptyString)).
    cbn [JS.trimStart]. destruct (JS.is_space x); [exact IH|].
    exact (trimEnd_app_space (String x s) c Hc).
Qed.

Lemma chomp_cr_cases s :
  chomp_cr s = s \/ s = chomp_cr s ++ String JS.CR EmptyString.
Proof.
  induction s as [|c s IH]; [now left|].
  destruct s as [|d s'].
  - cbn [chomp_cr]. destruct (Ascii.eqb_spec c JS.CR) as [->|]; [now right|now left].
  - change (chomp_cr (String c (String d s')))
      with (String c (chomp_cr (String d s'))).
    destruct IH as [IH|IH]; [left|right].
    + now rewrite IH.
    + cbn [append]. now rewrite <- IH.
Qed.

Lemma trim_chomp_cr s : JS.trim (chomp_cr s) = JS.trim s.
Proof.
  destruct (chomp_cr_cases s) as [E|E]; [now rewrite E|].
  rewrite E at 2. symmetry. now apply trim_app_space.
Qed.

Lemma exec_chomp_cr s : exec s = None -> exec (chomp_cr s) = None.
Proof.
  intros H. destruct (chomp_cr_prefix s) as [x Hx].
  apply (exec_app_none _ x). now rewrite <- Hx.
Qed.

(** What the body of the loop makes of well-formed timestamps followed by
    a text in which no timestamp is found. *)
Lemma line_entries_stamped stamps txt :
  forallb stamp_ok stamps = true -> exec txt = None ->
  line_entries (line stamps txt)
  = if JS.is_empty (JS.trim txt) then [] else stamp_entries stamps txt.
Proof.
  intros Hok Htxt. unfold line_entries, stamp_entries.
  rewrite exec_times_line, remove_stamps_line by exact Hok.
  rewrite (remove_stamps_none txt Htxt).
  rewrite (exec_times_eq txt), Htxt, app_nil_r, map_map.
  destruct stamps as [|st sts].
  - cbn [map]. now destruct (JS.is_empty (JS.trim (line [] txt))),
      (JS.is_empty (JS.trim txt)).
  - assert (JS.is_empty (JS.trim (line (st :: sts) txt)) = false) as ->.
    { change (line (st :: sts) txt) with (render st ++ line sts txt).
      rewrite render_onto. now apply trim_not_empty. }
    reflexivity.
Qed.

Lemma line_entries_stamped_chomp stamps txt :
  forallb stamp_ok stamps = true -> exec txt = None ->
  line_entries (chomp_cr (line stamps txt))
  = if JS.is_empty (JS.trim txt) then [] else stamp_entries stamps txt.
Proof.
  intros Hok Htxt.
  rewrite chomp_cr_line, line_entries_stamped by (auto using exec_chomp_cr).
  unfold stamp_entries. now rewrite trim_chomp_cr.
Qed.

Lemma no_match_exec s : no_match s = true -> exec s = None.
Proof. unfold no_match. now destruct (exec s). Qed.

Lemma lrc_line_no_lf k : lrc_line_ok k = true -> has_lf (lrc_line_text k) = false.
Proof.
  destruct k as [stamps txt|s]; cbn [lrc_line_ok lrc_line_text]; intros H;
    repeat (apply andb_prop in H as [H ?]);
    repeat match goal with
           | E : negb _ = true |- _ => apply negb_true_iff in E
           end.
  - now apply line_no_lf.
  - assumption.
Qed.

Lemma lrc_line_entries_ok k :
  lrc_line_ok k = true ->
  line_entries (lrc_line_text k) = lrc_line_entries k /\
  line_entries (chomp_cr (lrc_line_text k)) = lrc_line_entries k.
Proof.
  destruct k as [stamps txt|s]; cbn [lrc_line_ok lrc_line_text lrc_line_entries];
    intros H; repeat (apply andb_prop in H as [H ?]);
    repeat match goal with
           | E : no_match _ = true |- _ => apply no_match_exec in E
           end.
  - split; [now apply line_entries_stamped|now apply line_entries_stamped_chomp].
  - split; apply line_entries_no_stamp; [assumption|now apply exec_chomp_cr].
Qed.

(** The lines of a text made of well-formed and unmatched lines give the
    entries of the lines, in the order of the text. *)
Lemma entries_of_lines ks :
  forallb lrc_line_ok ks = true ->
  flat_map line_entries (JS.split_lines (text_of_lines ks))
  = flat_map lrc_line_entries ks.
Proof.
  unfold text_of_lines.
  induction ks as [|k ks IH]; intros H; [reflexivity|].
  cbn [forallb] in H. apply andb_prop in H as [Hk Hks].
  destruct (lrc_line_entries_ok k Hk) as [E1 E2].
  pose proof (lrc_line_no_lf k Hk) as Hlf.
  destruct ks as [|k' ks'].
  - cbn [map String.concat flat_map].
    rewrite (split_lines_no_lf _ Hlf). cbn [flat_map]. now rewrite E1.
  - change (String.concat nl (map lrc_line_text (k :: k' :: ks')))
      with (lrc_line_text k
            ++ String JS.LF (String.concat nl (map lrc_line_text (k' :: ks')))).
    rewrite (split_lines_first _ Hlf).
    cbn [flat_map]. rewrite E2. f_equal. now apply IH.
Qed.

Lemma parse_lines ks :
  forallb lrc_line_ok ks = true ->
  parseLRC (text_of_lines ks)
  = JS.sort time_le (flat_map lrc_line_entries ks).
Proof. intros H. now rewrite parseLRC_eq, entries_of_lines. Qed.

(** A line put into a text adds its entries to those of the text. *)
Lemma sort_with_line (pre own post : list LyricLine) :
  Permutation (JS.sort time_le (pre ++ own ++ post))
              (own ++ JS.sort time_le (pre ++ post)).
Proof.
  rewrite !sort_perm. rewrite app_assoc.
  rewrite (Permutation_app_comm pre own), <- app_assoc. reflexivity.
Qed.

Lemma parseLRC_with_line before l after :
  has_lf l = false ->
  Permutation (parseLRC (before ++ Spec.nl ++ l ++ Spec.nl ++ after))
              (line_entries (chomp_cr l) ++ parseLRC (before ++ Spec.nl ++ after)).
Proof.
  intros Hl. destruct (parseLRC_after before) as [pre H].
  rewrite !H. change (Spec.nl ++ after) with (String JS.LF after).
  rewrite (split_lines_first l Hl after). cbn [flat_map].
  apply sort_with_line.
Qed.

Lemma parseLRC_with_first_line l after :
  has_lf l = false ->
  Permutation (parseLRC (l ++ Spec.nl ++ after))
              (line_entries (chomp_cr l) ++ parseLRC after).
Proof.
  intros Hl. rewrite !parseLRC_eq.
  change (Spec.nl ++ after) with (String JS.LF after).
  rewrite (split_lines_first l Hl after). cbn [flat_map].
  apply (sort_with_line []).
Qed.

Lemma parseLRC_with_last_line before l :
  has_lf l = false ->
  Permutation (parseLRC (before ++ Spec.nl ++ l))
              (line_entries l ++ parseLRC (before ++ Spec.nl)).
Proof.
  intros Hl. destruct (parseLRC_after before) as [pre H].
  rewrite (H l).
  change (before ++ Spec.nl) with (before ++ Spec.nl ++ EmptyString).
  rewrite (H EmptyString), (split_lines_no_lf l Hl).
  cbn [flat_map JS.split_lines].
  exact (sort_with_line pre (line_entries l) []).
Qed.

End Parser.

(** C6. A line that carries one or more well-formed timestamps and then a
    text that holds no timestamp and is not blank gives one entry for every
    timestamp, each with the trimmed text of the line, equal timestamps
    included.  This holds wherever the line stands in the text: between
    other lines, in front of them or behind them the result holds the
    entries of the other lines and, besides, exactly one entry for every
    timestamp of the line.  For a text that is the line alone the entries
    are the timestamps' times in ascending order.  The line
    [[00:01.00][00:02.00] x] gives two entries with the text [x], at 1000 ms
    and 2000 ms. *)
Theorem every_stamp_gives_an_entry (stamps : list Spec.Stamp)
  (txt before after : string) :
  stamps <> [] -> forallb Spec.stamp_ok stamps = true ->
  Lyrics.exec txt = None -> Spec.has_lf txt = false ->
  JS.trim txt <> EmptyString ->
  let l := Spec.line stamps txt in
  let own :=
    map (fun st => Lyrics.mkLine (Spec.stamp_time st) (JS.trim txt)) stamps in
  let out := Lyrics.parseLRC l in
  (Permutation
     (Lyrics.parseLRC (before ++ Spec.nl ++ l ++ Spec.nl ++ after))
     (own ++ Lyrics.parseLRC (before ++ Spec.nl ++ after)) /\
   List.length (Lyrics.parseLRC (before ++ Spec.nl ++ l ++ Spec.nl ++ after))
   = (List.length stamps
      + List.length (Lyrics.parseLRC (before ++ Spec.nl ++ after)))%nat /\
   Permutation (Lyrics.parseLRC (l ++ Spec.nl ++ after))
               (own ++ Lyrics.parseLRC after) /\
   Permutation (Lyrics.parseLRC (before ++ Spec.nl ++ l))
               (own ++ Lyrics.parseLRC (before ++ Spec.nl))) /\
  out = JS.sort Lyrics.time_le own /\
  List.length out = List.length stamps /\
  (forall e, In e out -> Lyrics.text e = JS.trim txt) /\
  Permutation (map Lyrics.time out) (map Spec.stamp_time stamps) /\
  (let two := Lyrics.parseLRC "[00:01.00][00:02.00] x" in
   map Lyrics.text two = ["x"; "x"] /\
   map (fun e => Qfloor (Lyrics.time e * 1000)) two = [1000; 2000]).
Proof.
  intros Hne Hok Htxt Hlf Htrim. cbv zeta.
  pose proof (line_no_lf stamps txt Hok Hlf) as Hl.
  assert (JS.is_empty (JS.trim txt) = false) as Hfull
    by (destruct (JS.trim txt); [congruence|reflexivity]).
  pose proof (line_entries_stamped stamps txt Hok Htxt) as E1.
  pose proof (line_entries_stamped_chomp stamps txt Hok Htxt) as E2.
  rewrite Hfull in E1, E2. unfold Spec.stamp_entries in E1, E2.
  assert (Lyrics.parseLRC (Spec.line stamps txt)
          = JS.sort Lyrics.time_le
              (map (fun st => Lyrics.mkLine (Spec.stamp_time st) (JS.trim txt))
                 stamps)) as E.
  { rewrite parseLRC_eq, (split_lines_no_lf _ Hl).
    cbn [flat_map]. now rewrite app_nil_r, E1. }
  split.
  { pose proof (parseLRC_with_line before _ after Hl) as P1.
    pose proof (parseLRC_with_first_line _ after Hl) as P2.
    pose proof (parseLRC_with_last_line before _ Hl) as P3.
    rewrite E2 in P1, P2. rewrite E1 in P3.
    split; [exact P1|]. split; [|split; assumption].
    rewrite (Permutation_length P1), length_app, length_map. reflexivity. }
  rewrite E. split; [reflexivity|].
  pose proof (sort_perm Lyrics.time_le
    (map (fun st => Lyrics.mkLine (Spec.stamp_time st) (JS.trim txt)) stamps))
    as Hp.
  split; [|split; [|split]].
  - now rewrite sort_length, length_map.
  - intros e He. apply (Permutation_in _ Hp) in He.
    apply in_map_iff in He as [st [<- _]]. reflexivity.
  - rewrite (Permutation_map Lyrics.time Hp), map_map. reflexivity.
  - split; reflexivity.
Qed.

(** C9, as stated, fails for a line that holds a malformed timestamp next
    to a well-formed one: the line is not skipped.  It gives an entry at the
    well-formed timestamp, and the malformed one stays in the text of the
    entry. *)
Lemma malformed_stamp_beside_good_one :
  let before := "[00:00.00] a" in
  let l := "[00:01.00][0x:30] b" in
  let after := "[00:02.00] c" in
  let out := Lyrics.parseLRC (before ++ Spec.nl ++ l ++ Spec.nl ++ after) in
  (Spec.has_lf l = false /\ Lyrics.exec "[0x:30]" = None) /\
  map Lyrics.text out = ["a"; "[0x:30] b"; "c"] /\
  map (fun e => Qfloor (Lyrics.time e * 1000)) out = [0; 1000; 2000] /\
  ~ Spec.skipped before l after.
Proof.
  cbv zeta. split; [split; reflexivity|]. split; [reflexivity|].
  split; [reflexivity|].
  unfold Spec.skipped. intros H.
  apply (f_equal (@List.length Lyrics.LyricLine)) in H. discriminate H.
Qed.

(** C9, amended.  A line in which the timestamp expression finds nothing
    adds no entry and takes none away.  In any text the line can be left
    out without a change of the result, whether it stands between other
    lines, in front of them or behind them.  In a text whose other lines are
    well-formed timestamps followed by a text, or unmatched lines
    themselves, the result is exactly the entries of the well-formed lines,
    one for every timestamp, sorted by time: the rest of the input gives its
    entries.  A malformed timestamp behind well-formed ones is part of the
    text of its line, which is not skipped: a line adds no entry exactly
    when the expression finds no timestamp in it at all, or when nothing
    but white space is left once the timestamps are removed. *)
Theorem line_without_stamp_is_skipped (ks1 ks2 : list Spec.LrcLine)
  (before bad after : string) :
  Spec.has_lf bad = false -> Lyrics.exec bad = None ->
  forallb Spec.lrc_line_ok ks1 = true -> forallb Spec.lrc_line_ok ks2 = true ->
  Lyrics.line_entries bad = [] /\
  Lyrics.parseLRC (before ++ Spec.nl ++ bad ++ Spec.nl ++ after)
    = Lyrics.parseLRC (before ++ Spec.nl ++ after) /\
  Lyrics.parseLRC (bad ++ Spec.nl ++ after) = Lyrics.parseLRC after /\
  Lyrics.parseLRC (before ++ Spec.nl ++ bad)
    = Lyrics.parseLRC (before ++ Spec.nl) /\
  Lyrics.parseLRC (Spec.text_of_lines (ks1 ++ Spec.Unmatched bad :: ks2))
    = JS.sort Lyrics.time_le (flat_map Spec.lrc_line_entries (ks1 ++ ks2)) /\
  Lyrics.parseLRC (Spec.text_of_lines (ks1 ++ ks2))
    = JS.sort Lyrics.time_le (flat_map Spec.lrc_line_entries (ks1 ++ ks2)) /\
  (forall l,
     Lyrics.line_entries l = [] <->
     Lyrics.exec l = None \/ JS.trim (Lyrics.remove_stamps l) = EmptyString).
Proof.
  intros Hlf Hbad Hks1 Hks2.
  assert (Lyrics.line_entries (Spec.chomp_cr bad) = []) as Hc.
  { apply line_entries_no_stamp. destruct (chomp_cr_prefix bad) as [x Hx].
    apply (exec_app_none _ x). now rewrite <- Hx. }
  split; [now apply line_entries_no_stamp|].
  split; [now apply parseLRC_drop_line|].
  split; [now apply parseLRC_first|].
  split.
  { destruct (parseLRC_after before) as [pre H].
    rewrite (H bad).
    change (before ++ Spec.nl) with (before ++ Spec.nl ++ EmptyString).
    rewrite (H EmptyString), (split_lines_no_lf bad Hlf).
    cbn [flat_map JS.split_lines]. rewrite (line_entries_no_stamp bad Hbad).
    reflexivity. }
  split.
  - rewrite parse_lines.
    + rewrite !flat_map_app. reflexivity.
    + rewrite forallb_app. cbn [forallb Spec.lrc_line_ok].
      unfold Spec.no_match. rewrite Hbad, Hlf, Hks1, Hks2. reflexivity.
  - split; [|exact line_entries_nil].
    apply parse_lines. rewrite forallb_app, Hks1, Hks2. reflexivity.
Qed.

(** C10. A line that holds timestamps and, once they are removed, nothing
    but white space adds no entry: the result is the result for the text
    without the line, and a text that is this line alone parses to
    nothing. *)
Theorem stamp_only_line_is_dropped (before l after : string) :
  Spec.has_lf l = false ->
  Lyrics.exec_times (Spec.chomp_cr l) <> [] ->
  JS.trim (Lyrics.remove_stamps (Spec.chomp_cr l)) = EmptyString ->
  Lyrics.line_entries (Spec.chomp_cr l) = [] /\
  Lyrics.parseLRC (before ++ Spec.nl ++ l ++ Spec.nl ++ after)
    = Lyrics.parseLRC (before ++ Spec.nl ++ after) /\
  Lyrics.parseLRC (l ++ Spec.nl ++ after) = Lyrics.parseLRC after /\
  (Spec.chomp_cr l = l -> Lyrics.parseLRC l = []).
Proof.
  intros Hlf _ Hblank.
  pose proof (line_entries_blank_residue _ Hblank) as He.
  split; [exact He|].
  split; [now apply parseLRC_drop_line|].
  split; [now apply parseLRC_first|].
  intros Hl. unfold Lyrics.parseLRC.
  rewrite (split_lines_no_lf l Hlf). cbn [flat_map].
  rewrite <- Hl, He. now destruct (JS.is_empty (Spec.chomp_cr l)).
Qed.

(** ** The statements at concrete inputs *)

Lemma current_index_witness :
  let lyrics := [Lyrics.mkLine 0 "a"; Lyrics.mkLine 4 "b"; Lyrics.mkLine 8.5 "c"] in
  Sorted Spec.by_time lyrics /\
  Lyrics.currentIndex lyrics 5 = Some (Spec.naive_index lyrics 5).
Proof.
  cbv zeta.
  assert (Sorted Spec.by_time
            [Lyrics.mkLine 0 "a"; Lyrics.mkLine 4 "b"; Lyrics.mkLine 8.5 "c"])
    as Hs by (repeat constructor; unfold Spec.by_time, Qle; simpl; lia).
  split; [exact Hs|].
  destruct (current_index_is_last_started _ 5 Hs) as [i [Hi [_ [_ [Hn _]]]]].
  rewrite Hi. now rewrite Hn.
Defined.

Lemma merged_list_witness :
  let s := [Player.mkSegment "s0" 0 None "a" None;
            Player.manual_segment 4000 5000;
            Player.mkSegment "s1" 8500 None "c" None] in
  let merged := Player.onWaveSelection 1000 2000 s in
  map Player.start_ms merged = [0; 1000; 4000; 8500] /\
  map Player.id s = ["s0"; "manual-4000"; "s1"] /\
  Sorted Spec.by_start merged /\
  NoDup (map Player.id merged).
Proof.
  cbv zeta. split; [reflexivity|]. split; [reflexivity|].
  pose proof (merged_list_sorted_and_ids
                [Player.mkSegment "s0" 0 None "a" None;
                 Player.manual_segment 4000 5000;
                 Player.mkSegment "s1" 8500 None "c" None] 1000 2000) as H.
  cbv zeta in H. destruct H as [Hs [_ Hid]].
  split; [exact Hs|].
  apply (proj2 Hid). split.
  - repeat constructor; simpl; intuition discriminate.
  - simpl. intuition discriminate.
Defined.

Lemma visible_range_witness :
  (0 <= 560 /\ 0 < 56 /\ 0 < 560 /\ 0 <= 5) /\
  VirtualList.visible (repeat tt 1000) 56 560 (Some 5) 560
    = firstn 21 (skipn 5 (repeat tt 1000)).
Proof.
  split; [lia|].
  destruct (visible_range_formula (repeat tt 1000) 56 560 5 560)
    as [_ [Hv _]]; try lia.
  exact Hv.
Defined.

Lemma every_stamp_witness :
  let stamps := [Spec.mkStamp "00" "01" (Some "00");
                 Spec.mkStamp "00" "02" (Some "00")] in
  let l := Spec.line stamps " x" in
  let whole :=
    Lyrics.parseLRC ("[00:01.50] a" ++ Spec.nl ++ l ++ Spec.nl ++ "[00:03.00] b") in
  (forallb Spec.stamp_ok stamps = true /\ l = "[00:01.00][00:02.00] x") /\
  map Lyrics.text whole = ["x"; "a"; "x"; "b"] /\
  map (fun e => Qfloor (Lyrics.time e * 1000)) whole = [1000; 1500; 2000; 3000] /\
  Permutation whole
    (map (fun st => Lyrics.mkLine (Spec.stamp_time st) (JS.trim " x")) stamps
     ++ Lyrics.parseLRC ("[00:01.50] a" ++ Spec.nl ++ "[00:03.00] b")).
Proof.
  cbv zeta. split; [split; reflexivity|]. split; [reflexivity|].
  split; [reflexivity|].
  assert (JS.trim " x" <> EmptyString) as Ht by (vm_compute; discriminate).
  exact (proj1 (proj1 (every_stamp_gives_an_entry
                         [Spec.mkStamp "00" "01" (Some "00");
                          Spec.mkStamp "00" "02" (Some "00")] " x"
                         "[00:01.50] a" "[00:03.00] b"
                         ltac:(discriminate) eq_refl eq_refl eq_refl Ht))).
Defined.

Lemma peaks_witness :
  let ch := [0.1; 0.2; -0.3; 0.4; 0.5]%Q in
  (0 < 2 /\ 0 <= 1 < 2) /\
  nth_error (Waveform.peaks ch 2) 1
    = Some (Spec.min_max_from (1, -1)%Q (Spec.chunk ch 2 1)).
Proof.
  cbv zeta. split; [lia|].
  destruct (peaks_by_floor_step [0.1; 0.2; -0.3; 0.4; 0.5]%Q 2 1)
    as [_ [Hn _]]; try lia.
  exact Hn.
Defined.

Lemma skipped_line_witness :
  let ks1 := [Spec.Stamped [Spec.mkStamp "00" "01" (Some "00")] " a"] in
  let ks2 := [Spec.Stamped [Spec.mkStamp "00" "02" (Some "00");
                            Spec.mkStamp "00" "00" (Some "50")] " b [x:y]"] in
  let text := Spec.text_of_lines (ks1 ++ Spec.Unmatched "[bad] y" :: ks2) in
  (Spec.has_lf "[bad] y" = false /\ Lyrics.exec "[bad] y" = None /\
   forallb Spec.lrc_line_ok ks1 = true /\ forallb Spec.lrc_line_ok ks2 = true) /\
  text = "[00:01.00] a" ++ Spec.nl ++ "[bad] y" ++ Spec.nl
         ++ "[00:02.00][00:00.50] b [x:y]" /\
  map Lyrics.text (Lyrics.parseLRC text) = ["b [x:y]"; "a"; "b [x:y]"] /\
  Lyrics.parseLRC text
  = JS.sort Lyrics.time_le (flat_map Spec.lrc_line_entries (ks1 ++ ks2)).
Proof.
  cbv zeta. split; [repeat split; reflexivity|]. split; [reflexivity|].
  split; [reflexivity|].
  exact (proj1 (proj2 (proj2 (proj2 (proj2
    (line_without_stamp_is_skipped
       [Spec.Stamped [Spec.mkStamp "00" "01" (Some "00")] " a"]
       [Spec.Stamped [Spec.mkStamp "00" "02" (Some "00");
                      Spec.mkStamp "00" "00" (Some "50")] " b [x:y]"]
       EmptyString "[bad] y" EmptyString
       eq_refl eq_refl eq_refl eq_refl)))))).
Defined.

Lemma stamp_only_witness :
  Spec.has_lf "[00:03.00]  " = false /\
  Lyrics.exec_times (Spec.chomp_cr "[00:03.00]  ") <> [] /\
  JS.trim (Lyrics.remove_stamps (Spec.chomp_cr "[00:03.00]  ")) = EmptyString /\
  Lyrics.parseLRC ("[00:01.00] a" ++ Spec.nl ++ "[00:03.00]  " ++ Spec.nl ++ "[00:02.00] b")
    = Lyrics.parseLRC ("[00:01.00] a" ++ Spec.nl ++ "[00:02.00] b").
Proof.
  assert (Lyrics.exec_times (Spec.chomp_cr "[00:03.00]  ") <> []) as Hne
    by (vm_compute; discriminate).
  split; [reflexivity|]. split; [exact Hne|]. split; [reflexivity|].
  exact (proj1 (proj2 (stamp_only_line_is_dropped
                         "[00:01.00] a" "[00:03.00]  " "[00:02.00] b"
                         eq_refl Hne eq_refl))).
Defined.

(** * Further properties of the sources *)

(** ** Parsed lyrics and the lookup *)

Lemma Sorted_weaken {A} (R S : A -> A -> Prop) l :
  (forall a b, R a b -> S a b) -> Sorted R l -> Sorted S l.
Proof.
  intros H. induction 1 as [|x l _ IH Hd]; constructor; [exact IH|].
  destruct Hd; constructor. now apply H.
Qed.

Lemma time_le_total a b :
  Lyrics.time_le a b = false -> Lyrics.time_le b a = true.
Proof.
  unfold Lyrics.time_le. intros H. apply Qle_bool_iff.
  apply Qlt_le_weak, Qnot_le_lt. intros Hle.
  apply Qle_bool_iff in Hle. congruence.
Qed.

Lemma sort_by_time l : Sorted Spec.by_time (JS.sort Lyrics.time_le l).
Proof.
  apply Sorted_weaken with (R := fun a b => Lyrics.time_le a b = true).
  - intros a b H. now apply Qle_bool_iff.
  - apply sort_sorted, time_le_total.
Qed.

Lemma parsed_lyrics_sorted text : Sorted Spec.by_time (Lyrics.parseLRC text).
Proof.
  unfold Lyrics.parseLRC. destruct (JS.is_empty text); [constructor|].
  apply sort_by_time.
Qed.

(** X1. Whatever the text, the entries [parseLRC] returns are in ascending
    order of time, in each of the three copies of the parser. *)
Theorem parseLRC_sorted (text : string) :
  Sorted Spec.by_time (Lyrics.parseLRC text) /\
  Sorted Spec.by_time (LyricsMotion.parseLRC text) /\
  Sorted Spec.by_time (PlayerJsx.parseLRC text).
Proof.
  split; [apply parsed_lyrics_sorted|].
  unfold LyricsMotion.parseLRC, PlayerJsx.parseLRC.
  destruct (JS.is_empty text); split; try constructor; apply sort_by_time.
Qed.

(** X2. On the lyrics parsed from any text the lookup of the loop reads
    inside the list only and returns the index of the last entry whose time
    is at most [t], [-1] when there is none: an entry has started exactly
    when its index is at most the result. *)
Theorem lookup_on_parsed_lyrics (text : string) (t : Q) :
  exists i,
    Lyrics.currentIndex (Lyrics.parseLRC text) t = Some i /\
    i = Spec.naive_index (Lyrics.parseLRC text) t /\
    -1 <= i < Z.of_nat (List.length (Lyrics.parseLRC text)) /\
    forall j l, JS.index (Lyrics.parseLRC text) j = Some l ->
      ((Lyrics.time l <= t)%Q <-> j <= i).
Proof.
  pose proof (parsed_lyrics_sorted text) as Hs.
  destruct (currentIndex_spec _ t Hs) as [i [Hi [Hb Hc]]].
  exists i. split; [exact Hi|]. split; [|split; [exact Hb|exact Hc]].
  pose proof (currentIndex_naive _ t Hs). congruence.
Qed.

Lemma index_le_of_time_le lyrics t1 t2 i1 i2 :
  Sorted Spec.by_time lyrics -> (t1 <= t2)%Q ->
  Lyrics.currentIndex lyrics t1 = Some i1 ->
  Lyrics.currentIndex lyrics t2 = Some i2 ->
  i1 <= i2.
Proof.
  intros Hs Ht H1 H2.
  destruct (currentIndex_spec lyrics t1 Hs) as [j1 [E1 [B1 C1]]].
  destruct (currentIndex_spec lyrics t2 Hs) as [j2 [E2 [B2 C2]]].
  assert (j1 = i1) as -> by congruence. assert (j2 = i2) as -> by congruence.
  destruct (Z.eq_dec i1 (-1)) as [->|Hne]; [lia|].
  destruct (index_in_range lyrics i1) as [l Hl]; [lia|].
  apply (C2 i1 l Hl). unfold started.
  apply Qle_trans with t1; [|exact Ht].
  apply (C1 i1 l Hl). lia.
Qed.

(** X3. On lines sorted by time the lookup is monotone: a later playback
    time never gives an earlier line. *)
Theorem lookup_monotone (lyrics : list Lyrics.LyricLine) (t1 t2 : Q) (i1 i2 : Z) :
  Sorted Spec.by_time lyrics -> (t1 <= t2)%Q ->
  Lyrics.currentIndex lyrics t1 = Some i1 ->
  Lyrics.currentIndex lyrics t2 = Some i2 ->
  i1 <= i2.
Proof.
  intros Hs Ht H1 H2.
  exact (index_le_of_time_le lyrics t1 t2 i1 i2 Hs Ht H1 H2).
Qed.

(** X4. On lines sorted by time, the lookup at the time of line [i] gives a
    line at or after [i] with that same time, the last of the lines tied
    with it; when the next line is strictly later it gives [i] itself. *)
Theorem lookup_at_line_time (lyrics : list Lyrics.LyricLine) (i : Z)
  (l : Lyrics.LyricLine) :
  Sorted Spec.by_time lyrics -> JS.index lyrics i = Some l ->
  exists j l',
    Lyrics.currentIndex lyrics (Lyrics.time l) = Some j /\
    i <= j /\ JS.index lyrics j = Some l' /\
    (Lyrics.time l' == Lyrics.time l)%Q /\
    (forall k n, j < k -> JS.index lyrics k = Some n ->
       (Lyrics.time l < Lyrics.time n)%Q) /\
    ((forall n, JS.index lyrics (i + 1) = Some n ->
        (Lyrics.time l < Lyrics.time n)%Q) -> j = i).
Proof.
  intros Hs Hi.
  destruct (currentIndex_spec lyrics (Lyrics.time l) Hs) as [j [Ej [Bj Cj]]].
  assert (i <= j) as Hij by (apply (Cj i l Hi); apply Qle_refl).
  pose proof (index_lt _ _ _ Hi) as Hir.
  destruct (index_in_range lyrics j) as [l' Hl']; [lia|].
  assert (Lyrics.time l' <= Lyrics.time l)%Q as Hle
    by (apply (Cj j l' Hl'); lia).
  assert (Lyrics.time l <= Lyrics.time l')%Q as Hge
    by (apply (sorted_index lyrics Hs i j); assumption).
  exists j, l'. repeat split; auto.
  - now apply Qle_antisym.
  - intros k n Hk Hn. apply Qnot_le_lt. intros Hc.
    apply (Cj k n Hn) in Hc. lia.
  - intros Hnext. destruct (Z.eq_dec j i) as [|Hne]; [assumption|]. exfalso.
    destruct (index_in_range lyrics (i + 1)) as [n Hn]; [lia|].
    specialize (Hnext n Hn).
    assert (Lyrics.time n <= Lyrics.time l')%Q as Hn'
      by (apply (sorted_index lyrics Hs (i + 1) j); auto; lia).
    apply (Qlt_irrefl (Lyrics.time l)).
    apply Qlt_le_trans with (Lyrics.time n); [exact Hnext|].
    now apply Qle_trans with (Lyrics.time l').
Qed.

Lemma last_cons_cons {A} (a b : A) l d : last (a :: b :: l) d = last (b :: l) d.
Proof. reflexivity. Qed.

Lemma ticks_forward lyrics :
  Sorted Spec.by_time lyrics ->
  forall ts ref,
    Sorted Qle ts ->
    (forall t i, In t ts -> Lyrics.currentIndex lyrics t = Some i -> ref <= i) ->
    exists r calls,
      Lyrics.ticks lyrics ts ref = Some (r, calls) /\
      ref <= r /\ StronglySorted Z.lt (ref :: calls) /\
      (forall i, In i calls -> i <= r) /\
      (ts <> [] -> forall d, Lyrics.currentIndex lyrics (last ts d) = Some r).
Proof.
  intros Hs. induction ts as [|t ts IH]; intros ref Hts Href.
  - exists ref, []. repeat split; try lia; try congruence.
    + repeat constructor.
    + intros i [].
  - cbn [Lyrics.ticks]. unfold Lyrics.tick.
    destruct (currentIndex_spec lyrics t Hs) as [ans [Ea _]]. rewrite Ea.
    assert (ref <= ans) as Hra by (apply (Href t ans); [now left|exact Ea]).
    assert (Sorted Qle ts) as Hts' by now inversion Hts.
    assert (forall t', In t' ts -> (t <= t')%Q) as Hlater.
    { apply Sorted_StronglySorted in Hts; [|intros x y z; apply Qle_trans].
      inversion Hts as [|? ? _ Hall]; subst.
      now rewrite Forall_forall in Hall. }
    assert (forall t' i, In t' ts ->
              Lyrics.currentIndex lyrics t' = Some i -> ans <= i) as Hans.
    { intros t' i Hin Ei.
      apply (index_le_of_time_le lyrics t t' ans i Hs); auto. }
    destruct (IH ans Hts' Hans) as [r [calls [E [Hr [Hc [Hle Hl]]]]]].
    assert (forall d, Lyrics.currentIndex lyrics (last (t :: ts) d) = Some r)
      as Hlast.
    { intros d. destruct ts as [|t' ts'].
      - cbn in E. injection E as <- _. exact Ea.
      - rewrite last_cons_cons. apply Hl. discriminate. }
    unfold Lyrics.store_index. destruct (Z.eqb_spec ans ref) as [Heq|Hne].
    + subst ans. rewrite E. exists r, calls. repeat split; auto.
    + rewrite E. exists r, (ans :: calls). repeat split; try lia; auto.
      * inversion Hc as [|? ? Hc' Hall]; subst.
        constructor; [exact Hc|]. constructor; [lia|].
        rewrite Forall_forall in *. intros x Hx. specialize (Hall x Hx). lia.
      * intros i [<-|Hin]; [exact Hr|now apply Hle].
Qed.

(** X5. During forward playback over lines sorted by time, that is for
    ticks at times that never decrease and a ref that starts at [-1], no
    tick fails, [setIndex] is called with strictly increasing indices, all
    of them lines of the list, so every line is announced at most once, and
    the ref ends at the lookup of the last time. *)
Theorem forward_playback_announces_once (lyrics : list Lyrics.LyricLine)
  (ts : list Q) :
  Sorted Spec.by_time lyrics -> Sorted Qle ts ->
  exists r calls,
    Lyrics.ticks lyrics ts (-1) = Some (r, calls) /\
    StronglySorted Z.lt calls /\
    (forall i, In i calls -> 0 <= i < Z.of_nat (List.length lyrics)) /\
    (ts <> [] -> forall d, Lyrics.currentIndex lyrics (last ts d) = Some r).
Proof.
  intros Hs Hts.
  destruct (ticks_forward lyrics Hs ts (-1) Hts)
    as [r [calls [E [Hr [Hc [Hle Hl]]]]]].
  { intros t i _ Ei. destruct (currentIndex_spec lyrics t Hs) as [j [Ej [Bj _]]].
    assert (j = i) by congruence. lia. }
  exists r, calls. split; [exact E|].
  inversion Hc as [|? ? Hc' Hall]; subst.
  split; [exact Hc'|]. split; [|exact Hl].
  intros i Hin. rewrite Forall_forall in Hall. specialize (Hall i Hin).
  specialize (Hle i Hin). split; [lia|].
  destruct ts as [|t ts'].
  - cbn in E. injection E as _ <-. destruct Hin.
  - destruct (currentIndex_spec lyrics (last (t :: ts') t) Hs)
      as [j [Ej [Bj _]]].
    rewrite (Hl ltac:(discriminate) t) in Ej. injection Ej as <-. lia.
Qed.

(** ** What the parser returns *)

Lemma trimEnd_cons c s :
  JS.trimEnd (String c s)
  = match JS.trimEnd s with
    | EmptyString => if JS.is_space c then EmptyString else String c EmptyString
    | String d r => String c (String d r)
    end.
Proof. reflexivity. Qed.

Lemma trimEnd_idem s : JS.trimEnd (JS.trimEnd s) = JS.trimEnd s.
Proof.
  induction s as [|c s IH]; [reflexivity|].
  rewrite trimEnd_cons. destruct (JS.trimEnd s) as [|d r] eqn:E.
  - destruct (JS.is_space c) eqn:Ec; [reflexivity|].
    rewrite trimEnd_cons. cbn [JS.trimEnd]. now rewrite Ec.
  - rewrite trimEnd_cons, IH. reflexivity.
Qed.

Lemma trimStart_head s :
  JS.trimStart s = EmptyString \/
  exists c r, JS.trimStart s = String c r /\ JS.is_space c = false.
Proof.
  induction s as [|c s IH]; [now left|].
  cbn [JS.trimStart]. destruct (JS.is_space c) eqn:Ec; [exact IH|].
  right. now exists c, s.
Qed.

Lemma trimEnd_keeps_head c s :
  JS.is_space c = false -> exists r, JS.trimEnd (String c s) = String c r.
Proof.
  intros Hc. rewrite trimEnd_cons. destruct (JS.trimEnd s) as [|d r].
  - rewrite Hc. now exists EmptyString.
  - now exists (String d r).
Qed.

Lemma trim_idem s : JS.trim (JS.trim s) = JS.trim s.
Proof.
  unfold JS.trim. destruct (trimStart_head s) as [->|[c [r [-> Hc]]]].
  - reflexivity.
  - destruct (trimEnd_keeps_head c r Hc) as [r' E]. rewrite E.
    cbn [JS.trimStart]. rewrite Hc, <- E. apply trimEnd_idem.
Qed.

Lemma in_parseLRC text l :
  In l (Lyrics.parseLRC text) ->
  exists raw, In raw (JS.split_lines text) /\ In l (Lyrics.line_entries raw).
Proof.
  unfold Lyrics.parseLRC. destruct (JS.is_empty text); [intros []|].
  intros H. apply (Permutation_in _ (sort_perm _ _)) in H.
  apply in_flat_map in H. exact H.
Qed.

(** X6. Every entry [parseLRC] returns has a text that is not empty and
    that is trimmed: [trim] leaves it as it is. *)
Theorem parsed_text_is_trimmed (text : string) (l : Lyrics.LyricLine) :
  In l (Lyrics.parseLRC text) ->
  Lyrics.text l <> EmptyString /\ JS.trim (Lyrics.text l) = Lyrics.text l.
Proof.
  intros H. apply in_parseLRC in H as [raw [_ H]].
  unfold Lyrics.line_entries in H.
  destruct (JS.is_empty (JS.trim raw)); [destruct H|].
  destruct (JS.trim (Lyrics.remove_stamps raw)) as [|c r] eqn:E; [destruct H|].
  cbn [JS.is_empty] in H. apply in_map_iff in H as [t [<- _]].
  cbn [Lyrics.text]. split; [discriminate|].
  rewrite <- E. apply trim_idem.
Qed.

Lemma take_digits_digits n : forall s d r,
  Lyrics.take_digits n s = (d, r) ->
  Spec.all_digits d = true /\ (String.length d <= n)%nat.
Proof.
  induction n as [|n IH]; intros [|c s] d r; cbn [Lyrics.take_digits];
    try (intros [= <- <-]; split; [reflexivity|simpl; lia]).
  destruct (JS.is_digit c) eqn:Ec.
  - destruct (Lyrics.take_digits n s) as [d' r'] eqn:E.
    intros [= <- <-]. destruct (IH _ _ _ E) as [Hd Hl].
    cbn [Spec.all_digits String.length]. rewrite Ec, Hd. split; [reflexivity|lia].
  - intros [= <- <-]. split; [reflexivity|simpl; lia].
Qed.

Lemma match_here_captures s m1 m2 r :
  Lyrics.match_here s = Some (m1, m2, r) -> Spec.captures_ok m1 m2.
Proof.
  unfold Lyrics.match_here.
  destruct (Lyrics.expect "[" s) as [s1|]; [|discriminate].
  destruct (Lyrics.take_digits 2 s1) as [d1 s2] eqn:E2.
  destruct d1 as [|c1 d1'] eqn:Ed; [discriminate|]. rewrite <- Ed in *.
  destruct (Lyrics.expect ":" s2) as [s3|]; [|discriminate].
  destruct (Lyrics.take_digits 2 s3) as [sec s4] eqn:E4.
  destruct (String.length sec =? 2)%nat eqn:El; [|discriminate].
  destruct (Lyrics.match_fraction s4) as [[f rest]|] eqn:E5; [|discriminate].
  intros [= <- <- <-].
  destruct (take_digits_digits _ _ _ _ E2) as [H1 H1'].
  destruct (take_digits_digits _ _ _ _ E4) as [H2 _].
  apply Nat.eqb_eq in El.
  split; [exact H1|]. split; [rewrite Ed in *; simpl in *; lia|].
  exists sec, f. repeat split; auto.
  unfold Lyrics.match_fraction in E5. destruct s4 as [|c s4]; [discriminate|].
  destruct (Ascii.eqb c ".").
  - destruct (Lyrics.take_digits 3 s4) as [d r'] eqn:E3.
    destruct d as [|d0 d'] eqn:Edd; [discriminate|]. rewrite <- Edd in *.
    destruct (Lyrics.expect "]" r'); [|discriminate].
    injection E5 as <- _. right. exists d.
    destruct (take_digits_digits _ _ _ _ E3) as [H3 H3'].
    repeat split; auto. rewrite Edd. simpl. lia.
  - destruct (Ascii.eqb c "]"); [|discriminate].
    injection E5 as <- _. now left.
Qed.

Lemma exec_captures s : forall m1 m2 r,
  Lyrics.exec s = Some (m1, m2, r) -> Spec.captures_ok m1 m2.
Proof.
  induction s as [|c s IH]; intros m1 m2 r; cbn [Lyrics.exec].
  - discriminate.
  - destruct (Lyrics.match_here (String c s)) as [[[a b] q]|] eqn:E.
    + intros [= <- <- <-]. exact (match_here_captures _ _ _ _ E).
    + apply IH.
Qed.

Lemma digit_value_range c :
  JS.is_digit c = true -> 0 <= JS.digit_value c <= 9.
Proof.
  unfold JS.is_digit, JS.digit_value. intros H.
  apply andb_prop in H as [H1 H2].
  apply Nat.leb_le in H1, H2. lia.
Qed.

Lemma digits_value_range d : forall acc,
  Spec.all_digits d = true -> 0 <= acc ->
  acc * 10 ^ Z.of_nat (String.length d) <= JS.digits_value acc d
    < (acc + 1) * 10 ^ Z.of_nat (String.length d).
Proof.
  induction d as [|c d IH]; intros acc Hd Hacc.
  - simpl. lia.
  - cbn [Spec.all_digits] in Hd. apply andb_prop in Hd as [Hc Hd].
    pose proof (digit_value_range c Hc) as Hv.
    cbn [JS.digits_value String.length].
    specialize (IH (10 * acc + JS.digit_value c) Hd ltac:(lia)).
    rewrite Nat2Z.inj_succ, Z.pow_succ_r by lia.
    pose proof (Z.pow_pos_nonneg 10 (Z.of_nat (String.length d)) ltac:(lia) ltac:(lia)).
    nia.
Qed.

Lemma digit_not_dot c : JS.is_digit c = true -> Ascii.eqb c "." = false.
Proof.
  intros H. destruct (Ascii.eqb_spec c ".") as [->|]; [discriminate|reflexivity].
Qed.

Lemma split_dot_digits sec f :
  Spec.all_digits sec = true ->
  JS.split_dot (sec ++ f)
  = (sec ++ fst (JS.split_dot f), snd (JS.split_dot f)).
Proof.
  induction sec as [|c sec IH]; intros H.
  - cbn [append]. now destruct (JS.split_dot f).
  - cbn [Spec.all_digits] in H. apply andb_prop in H as [Hc Hs].
    cbn [append JS.split_dot]. rewrite (digit_not_dot c Hc), (IH Hs).
    reflexivity.
Qed.

Lemma split_dot_no_dot d :
  Spec.all_digits d = true -> JS.split_dot d = (d, None).
Proof.
  induction d as [|c d IH]; intros H; [reflexivity|].
  cbn [Spec.all_digits] in H. apply andb_prop in H as [Hc Hs].
  cbn [JS.split_dot]. now rewrite (digit_not_dot c Hc), (IH Hs).
Qed.

Lemma append_nil s : s ++ EmptyString = s.
Proof. induction s as [|c s IH]; simpl; [reflexivity|now rewrite IH]. Qed.

Lemma Q_whole_and_fraction a n p :
  0 <= a <= 99 -> 0 <= n < Zpos p ->
  (0 <= inject_Z a + (n # p) /\ inject_Z a + (n # p) < 100)%Q.
Proof.
  intros Ha Hn. unfold Qle, Qlt, Qplus, inject_Z. simpl.
  rewrite ?Pos2Z.inj_mul. nia.
Qed.

Lemma fraction_digits_range d :
  Spec.all_digits d = true -> (1 <= String.length d <= 3)%nat ->
  0 <= JS.digits_value 0 d < Zpos (Pos.pow 10 (Pos.of_nat (String.length d))).
Proof.
  intros Hd Hl. pose proof (digits_value_range d 0 Hd ltac:(lia)) as H.
  destruct (String.length d) as [|[|[|[|n]]]]; try lia;
    cbn in H |- *; lia.
Qed.

Lemma parseFloat_range m2 :
  (exists sec f,
     m2 = sec ++ f /\ Spec.all_digits sec = true /\ String.length sec = 2%nat /\
     (f = EmptyString \/
      exists d, f = String "." d /\ Spec.all_digits d = true /\
                (1 <= String.length d <= 3)%nat)) ->
  (0 <= JS.parseFloat m2 /\ JS.parseFloat m2 < 100)%Q.
Proof.
  intros [sec [f [-> [Hs [Hl Hf]]]]].
  pose proof (digits_value_range sec 0 Hs ltac:(lia)) as Hv.
  rewrite Hl in Hv. change (10 ^ Z.of_nat 2) with 100 in Hv.
  unfold JS.parseFloat. rewrite (split_dot_digits sec f Hs).
  destruct Hf as [->|[d [-> [Hd Hld]]]].
  - cbn [JS.split_dot fst snd]. rewrite append_nil.
    unfold Qle, Qlt, inject_Z. simpl. lia.
  - cbn [JS.split_dot Ascii.eqb Bool.eqb fst snd]. rewrite append_nil.
    apply Q_whole_and_fraction; [lia|].
    now apply fraction_digits_range.
Qed.

Lemma stamp_time_range m1 m2 :
  Spec.captures_ok m1 m2 ->
  (0 <= inject_Z (JS.parseInt m1) * 60 + JS.parseFloat m2 /\
   inject_Z (JS.parseInt m1) * 60 + JS.parseFloat m2 < 6040)%Q.
Proof.
  intros [H1 [Hl H2]]. destruct (parseFloat_range m2 H2) as [Hf0 Hf1].
  pose proof (digits_value_range m1 0 H1 ltac:(lia)) as Hv.
  assert (0 <= JS.parseInt m1 <= 99) as Hm.
  { unfold JS.parseInt.
    destruct (String.length m1) as [|[|[|n]]]; try lia; cbn in Hv; lia. }
  assert (0 <= inject_Z (JS.parseInt m1) /\ inject_Z (JS.parseInt m1) <= 99)%Q
    as [Hq0 Hq1].
  { unfold Qle, inject_Z. simpl. lia. }
  split; lra.
Qed.

Lemma exec_times_range s :
  Forall (fun q => 0 <= q /\ q < 6040)%Q (Lyrics.exec_times s).
Proof.
  funelim (Lyrics.exec_times s); [|constructor].
  constructor; [|assumption].
  match goal with E : Lyrics.exec _ = Some _ |- _ =>
    apply stamp_time_range; exact (exec_captures _ _ _ _ E) end.
Qed.

(** X7. Every time [parseLRC] returns lies between 0 and 6040 seconds: with
    at most two digits of minutes and two of seconds, 99 minutes and 99.999
    seconds is the latest time a timestamp can give. *)
Theorem parsed_time_range (text : string) (l : Lyrics.LyricLine) :
  In l (Lyrics.parseLRC text) ->
  (0 <= Lyrics.time l /\ Lyrics.time l < 6040)%Q.
Proof.
  intros H. apply in_parseLRC in H as [raw [_ H]].
  unfold Lyrics.line_entries in H.
  destruct (JS.is_empty (JS.trim raw)); [destruct H|].
  destruct (JS.is_empty (JS.trim (Lyrics.remove_stamps raw))); [destruct H|].
  apply in_map_iff in H as [t [<- Ht]]. cbn [Lyrics.time].
  pose proof (exec_times_range raw) as Hr. rewrite Forall_forall in Hr.
  now apply Hr.
Qed.

(** ** The three copies of the parser *)

Lemma trim_empty_all_space s :
  JS.is_empty (JS.trim s) = true -> Spec.all_space s = true.
Proof.
  unfold JS.trim. induction s as [|c s IH]; [reflexivity|].
  cbn [JS.trimStart Spec.all_space]. destruct (JS.is_space c) eqn:Ec.
  - exact IH.
  - destruct (trimEnd_keeps_head c s Ec) as [r ->]. discriminate.
Qed.

Lemma all_space_no_match s : Spec.all_space s = true -> Lyrics.exec s = None.
Proof.
  induction s as [|c s IH]; [reflexivity|].
  cbn [Spec.all_space]. intros H. apply andb_prop in H as [Hc Hs].
  cbn [Lyrics.exec]. unfold Lyrics.match_here. cbn [Lyrics.expect].
  destruct (Ascii.eqb_spec "[" c) as [<-|_]; [discriminate|].
  now apply IH.
Qed.

Lemma blank_line_no_times raw :
  JS.is_empty (JS.trim raw) = true -> Lyrics.exec_times raw = [].
Proof.
  intros H. rewrite exec_times_eq.
  now rewrite (all_space_no_match raw (trim_empty_all_space raw H)).
Qed.

Lemma motion_jsx_entries raw :
  LyricsMotion.line_entries raw = PlayerJsx.line_entries raw.
Proof.
  unfold LyricsMotion.line_entries, PlayerJsx.line_entries.
  destruct (JS.is_empty (JS.trim raw)) eqn:E; [|reflexivity].
  now rewrite (blank_line_no_times raw E).
Qed.

Lemma motion_jsx_agree text :
  LyricsMotion.parseLRC text = PlayerJsx.parseLRC text.
Proof.
  unfold LyricsMotion.parseLRC, PlayerJsx.parseLRC.
  destruct (JS.is_empty text); [reflexivity|]. f_equal.
  induction (JS.split_lines text) as [|raw ls IH]; [reflexivity|].
  cbn [flat_map]. now rewrite IH, motion_jsx_entries.
Qed.

(** X8. The second player of AppleMusicLyricsPlayer.tsx and Player.jsx parse
    every text to the same entries: the blank lines that only the former
    skips hold no timestamp, so they add no entry in the latter either. *)
Theorem motion_and_jsx_parsers_agree (text : string) :
  (forall raw, JS.is_empty (JS.trim raw) = true ->
     PlayerJsx.line_entries raw = []) /\
  LyricsMotion.parseLRC text = PlayerJsx.parseLRC text.
Proof.
  split; [|apply motion_jsx_agree].
  intros raw H. unfold PlayerJsx.line_entries.
  now rewrite (blank_line_no_times raw H).
Qed.

Section FilterSort.

Context {A : Type} (le : A -> A -> bool) (p : A -> bool).
Hypothesis le_total : forall a b, le a b = false -> le b a = true.
Hypothesis le_trans :
  forall a b c, le a b = true -> le b c = true -> le a c = true.

Lemma insert_first x l :
  Forall (fun y => le x y = true) l -> JS.insert le x l = x :: l.
Proof.
  destruct l as [|y ys]; [reflexivity|].
  intros H. inversion H; subst. cbn [JS.insert].
  now replace (le x y) with true.
Qed.

Lemma filter_insert x l :
  StronglySorted (fun a b => le a b = true) l ->
  filter p (JS.insert le x l)
  = if p x then JS.insert le x (filter p l) else filter p l.
Proof.
  induction 1 as [|y ys Hs IH Hall]; cbn [JS.insert filter].
  - now destruct (p x).
  - destruct (le x y) eqn:E.
    + cbn [filter]. destruct (p x); [|reflexivity].
      symmetry. apply insert_first.
      assert (Forall (fun z => le x z = true) (y :: ys)) as Hx.
      { constructor; [exact E|]. rewrite Forall_forall in *.
        intros z Hz. apply le_trans with y; auto. }
      rewrite Forall_forall in *. intros z Hz.
      change (In z (filter p (y :: ys))) in Hz.
      apply filter_In in Hz as [Hz _]. now apply Hx.
    + cbn [filter]. rewrite IH.
      destruct (p y), (p x); cbn [JS.insert]; rewrite ?E; reflexivity.
Qed.

Lemma filter_sort l : filter p (JS.sort le l) = JS.sort le (filter p l).
Proof.
  induction l as [|x xs IH]; [reflexivity|].
  cbn [JS.sort filter]. rewrite filter_insert.
  - rewrite IH. now destruct (p x).
  - apply Sorted_StronglySorted.
    + intros a b c. apply le_trans.
    + now apply sort_sorted.
Qed.

End FilterSort.

Lemma time_le_trans a b c :
  Lyrics.time_le a b = true -> Lyrics.time_le b c = true ->
  Lyrics.time_le a c = true.
Proof.
  unfold Lyrics.time_le. rewrite !Qle_bool_iff. apply Qle_trans.
Qed.

Lemma filter_line_entries raw :
  filter Spec.has_text (LyricsMotion.line_entries raw) = Lyrics.line_entries raw.
Proof.
  unfold LyricsMotion.line_entries, Lyrics.line_entries.
  destruct (JS.is_empty (JS.trim raw)); [reflexivity|]. cbv zeta.
  induction (Lyrics.exec_times raw) as [|t ts IH].
  - now destruct (JS.is_empty (JS.trim (Lyrics.remove_stamps raw))).
  - cbn [map filter]. rewrite IH. unfold Spec.has_text at 1. cbn [Lyrics.text].
    now destruct (JS.is_empty (JS.trim (Lyrics.remove_stamps raw))).
Qed.

(** X9. The first player's [parseLRC] returns what the other two copies
    return without the entries whose text is empty, in the same order. *)
Theorem first_parser_filters_empty_text (text : string) :
  Lyrics.parseLRC text = filter Spec.has_text (LyricsMotion.parseLRC text) /\
  Lyrics.parseLRC text = filter Spec.has_text (PlayerJsx.parseLRC text).
Proof.
  assert (Lyrics.parseLRC text = filter Spec.has_text (LyricsMotion.parseLRC text))
    as H.
  { unfold Lyrics.parseLRC, LyricsMotion.parseLRC.
    destruct (JS.is_empty text); [reflexivity|].
    rewrite (filter_sort Lyrics.time_le Spec.has_text time_le_total time_le_trans).
    f_equal. induction (JS.split_lines text) as [|raw ls IH]; [reflexivity|].
    cbn [flat_map]. now rewrite filter_app, <- IH, filter_line_entries. }
  split; [exact H|]. now rewrite <- motion_jsx_agree.
Qed.

(** ** End-time inference, again *)

Lemma infer_ends_None segs i :
  nth_error segs i = None -> nth_error (Player.infer_ends segs) i = None.
Proof.
  intros H. apply nth_error_None. rewrite infer_ends_length.
  now apply nth_error_None.
Qed.

Lemma infer_ends_map {B} (f : Player.Segment -> B) segs :
  (forall s e, f (Player.set_end_ms s e) = f s) ->
  map f (Player.infer_ends segs) = map f segs.
Proof.
  intros Hf. apply nth_error_ext. intros i. rewrite !nth_error_map.
  destruct (nth_error segs i) as [s|] eqn:E.
  - rewrite (infer_ends_nth segs i s E). cbn [option_map]. f_equal.
    unfold Spec.inferred_at. destruct (nth_error segs (S i)); [|reflexivity].
    destruct (Player.end_unresolved s); [apply Hf|reflexivity].
  - now rewrite (infer_ends_None segs i E).
Qed.

(** X10. End-time inference touches end times only: the list keeps its
    length and, in order, the ids, start times, texts and words of its
    segments, so a list sorted by start time stays sorted. *)
Theorem inference_changes_ends_only (segs : list Player.Segment) :
  List.length (Player.infer_ends segs) = List.length segs /\
  map Player.id (Player.infer_ends segs) = map Player.id segs /\
  map Player.start_ms (Player.infer_ends segs) = map Player.start_ms segs /\
  map Player.text (Player.infer_ends segs) = map Player.text segs /\
  map Player.words (Player.infer_ends segs) = map Player.words segs /\
  (Sorted Spec.by_start segs -> Sorted Spec.by_start (Player.infer_ends segs)).
Proof.
  assert (map Player.start_ms (Player.infer_ends segs) = map Player.start_ms segs)
    as Hst by (apply infer_ends_map; reflexivity).
  split; [apply infer_ends_length|].
  repeat split; try (apply infer_ends_map; reflexivity).
  revert Hst. generalize (Player.infer_ends segs). intros l Hl Hs. revert l Hl.
  induction Hs as [|x xs Hs IH Hd]; intros [|y ys] Hl; try discriminate;
    [constructor|].
  injection Hl as Hy Hys. constructor; [now apply IH|].
  destruct Hd as [|x' xs' Hxx]; destruct ys as [|y' ys']; try discriminate;
    constructor.
  injection Hys as Hy' _. unfold Spec.by_start in *. lia.
Qed.

Lemma inferred_at_start segs i s :
  Player.start_ms (Spec.inferred_at segs i s) = Player.start_ms s.
Proof.
  unfold Spec.inferred_at. destruct (nth_error segs (S i)); [|reflexivity].
  now destruct (Player.end_unresolved s).
Qed.

(** X11. End-time inference is idempotent: a second run changes nothing. *)
Theorem inference_idempotent (segs : list Player.Segment) :
  Player.infer_ends (Player.infer_ends segs) = Player.infer_ends segs.
Proof.
  apply nth_error_ext. intros i.
  destruct (nth_error segs i) as [s|] eqn:E.
  2:{ now rewrite (infer_ends_None _ i (infer_ends_None segs i E)),
        (infer_ends_None segs i E). }
  pose proof (infer_ends_nth segs i s E) as H1.
  rewrite (infer_ends_nth _ i _ H1), H1. f_equal.
  unfold Spec.inferred_at at 1.
  destruct (nth_error segs (S i)) as [n|] eqn:En.
  - rewrite (infer_ends_nth segs (S i) n En), inferred_at_start.
    unfold Spec.inferred_at. rewrite En.
    destruct (Player.end_unresolved s) eqn:Eu.
    + now destruct (Player.end_unresolved (Player.set_end_ms s (Player.start_ms n - 1))).
    + now rewrite Eu.
  - now rewrite (infer_ends_None segs (S i) En).
Qed.

(** X12. When the start times increase strictly, every segment but the last
    has, after inference, an end time that is present and not before its
    start; an inferred end lies before the start of the next segment. *)
Theorem inferred_ends_follow_starts (segs : list Player.Segment) (i : nat)
  (s n : Player.Segment) :
  Sorted (fun a b => Player.start_ms a < Player.start_ms b) segs ->
  nth_error segs i = Some s -> nth_error segs (S i) = Some n ->
  exists s' e,
    nth_error (Player.infer_ends segs) i = Some s' /\
    Player.end_ms s' = Some e /\ Player.start_ms s' <= e /\
    (Player.end_unresolved s = true -> e < Player.start_ms n).
Proof.
  intros Hs Hi Hn.
  assert (Player.start_ms s < Player.start_ms n) as Hlt.
  { clear - Hs Hi Hn. revert i Hi Hn.
    induction Hs as [|x xs Hs IH Hd]; intros [|i] Hi Hn; try discriminate.
    - cbn in Hi, Hn. injection Hi as ->. destruct xs as [|x' xs']; [discriminate|].
      cbn in Hn. injection Hn as ->. now inversion Hd.
    - apply (IH i); assumption. }
  exists (Spec.inferred_at segs i s).
  rewrite (infer_ends_nth segs i s Hi). unfold Spec.inferred_at. rewrite Hn.
  destruct (Player.end_unresolved s) eqn:Eu.
  - exists (Player.start_ms n - 1). cbn. repeat split; lia.
  - unfold Player.end_unresolved in Eu.
    destruct (Player.end_ms s) as [e|] eqn:Ee; [|discriminate].
    apply orb_false_elim in Eu as [_ Eu]. apply Z.leb_gt in Eu.
    exists e. repeat split; auto; try lia.
Qed.

(** ** Where a manual segment lands *)

Lemma insert_start_first x l :
  (forall y, In y l -> Player.start_ms x <= Player.start_ms y) ->
  JS.insert Player.start_le x l = x :: l.
Proof.
  destruct l as [|y ys]; [reflexivity|]. intros H. cbn [JS.insert].
  unfold Player.start_le.
  now replace (Player.start_ms x <=? Player.start_ms y) with true
    by (symmetry; apply Z.leb_le; apply H; now left).
Qed.

Lemma filter_none {A} (p : A -> bool) l :
  (forall y, In y l -> p y = false) -> filter p l = [].
Proof.
  induction l as [|x xs IH]; [reflexivity|]. intros H. cbn [filter].
  rewrite (H x) by now left. apply IH. intros y Hy. apply H. now right.
Qed.

Lemma filter_all {A} (p : A -> bool) l :
  (forall y, In y l -> p y = true) -> filter p l = l.
Proof.
  induction l as [|x xs IH]; [reflexivity|]. intros H. cbn [filter].
  rewrite (H x) by now left. f_equal. apply IH. intros y Hy. apply H. now right.
Qed.

(** X13. Merging a selection into a list sorted by start time leaves the old
    segments in their order and puts the new segment behind every old one
    that starts at or before it and in front of every later one. *)
Theorem manual_segment_position (s : list Player.Segment) (startMs endMs : Q) :
  Sorted Spec.by_start s ->
  let seg := Player.manual_segment startMs endMs in
  Player.onWaveSelection startMs endMs s
  = (filter (fun x => Player.start_ms x <=? Qfloor startMs) s
     ++ seg :: filter (fun x => negb (Player.start_ms x <=? Qfloor startMs)) s)%list.
Proof.
  intros Hs. cbv zeta. unfold Player.onWaveSelection.
  apply Sorted_StronglySorted in Hs;
    [|intros a b c; unfold Spec.by_start; lia].
  set (seg := Player.manual_segment startMs endMs).
  change (Qfloor startMs) with (Player.start_ms seg).
  induction Hs as [|x xs Hs IH Hall]; [reflexivity|].
  change ((x :: xs) ++ [seg])%list with (x :: (xs ++ [seg]))%list.
  cbn [JS.sort filter]. rewrite IH. rewrite Forall_forall in Hall.
  destruct (Z.leb_spec (Player.start_ms x) (Player.start_ms seg)) as [Hle|Hgt];
    cbn [negb app].
  - apply insert_start_first. intros y Hy.
    apply in_app_or in Hy as [Hy|[<-|Hy]]; [|exact Hle|];
      apply filter_In in Hy as [Hy _]; now apply Hall.
  - assert (filter (fun y => Player.start_ms y <=? Player.start_ms seg) xs = [])
      as ->.
    { apply filter_none. intros y Hy. apply Z.leb_gt. specialize (Hall y Hy).
      unfold Spec.by_start in Hall. lia. }
    assert (filter (fun y => negb (Player.start_ms y <=? Player.start_ms seg)) xs
            = xs) as ->.
    { apply filter_all. intros y Hy. apply negb_true_iff, Z.leb_gt.
      specialize (Hall y Hy). unfold Spec.by_start in Hall. lia. }
    cbn [app JS.insert]. unfold Player.start_le at 1.
    replace (Player.start_ms x <=? Player.start_ms seg) with false
      by (symmetry; apply Z.leb_gt; exact Hgt).
    f_equal. apply insert_start_first. exact Hall.
Qed.

(** ** Pointer positions and times *)

Lemma frac_range r : (0 <= Qmin 1 (Qmax 0 r) /\ Qmin 1 (Qmax 0 r) <= 1)%Q.
Proof.
  split; [|apply Q.le_min_l].
  apply Q.min_glb; [discriminate|apply Q.le_max_l].
Qed.

Lemma frac_monotone r1 r2 :
  (r1 <= r2)%Q -> (Qmin 1 (Qmax 0 r1) <= Qmin 1 (Qmax 0 r2))%Q.
Proof.
  intros H. apply Q.min_le_compat_l. now apply Q.max_le_compat_l.
Qed.

Lemma ratio_monotone left width x1 x2 :
  (0 < width)%Q -> (x1 <= x2)%Q ->
  ((x1 - left) / width <= (x2 - left) / width)%Q.
Proof.
  intros Hw Hx. unfold Qdiv. apply Qmult_le_compat_r; [lra|].
  apply Qlt_le_weak, Qinv_lt_0_compat, Hw.
Qed.

Lemma Qmult_le_l_weak z x y : (0 <= z)%Q -> (x <= y)%Q -> (z * x <= z * y)%Q.
Proof.
  intros Hz Hxy. rewrite (Qmult_comm z x), (Qmult_comm z y).
  now apply Qmult_le_compat_r.
Qed.

Lemma toMs_range left width d x :
  (0 <= d)%Q ->
  (0 <= Waveform.toMs left width (Some d) x /\
   Waveform.toMs left width (Some d) x <= d * 1000)%Q.
Proof.
  intros Hd. unfold Waveform.toMs.
  assert (0 <= d * 1000)%Q as Hd' by lra.
  destruct (frac_range ((x - left) / width)) as [H0 H1]. split.
  - apply Qmult_le_0_compat; assumption.
  - setoid_replace (d * 1000)%Q with (d * 1000 * 1)%Q at 2 by ring.
    apply Qmult_le_l_weak; assumption.
Qed.

(** X14. [toMs] is the linear map from the canvas to the track, clamped at
    both ends: for a positive width and a duration [d] that is not negative
    it lies in [[0, d * 1000]], it never decreases with the pointer
    position, it is 0 at and left of the left edge and [d * 1000] at and
    right of the right edge; without a decoded buffer it is 0. *)
Theorem toMs_clamped_linear (left width d x1 x2 : Q) :
  (0 < width)%Q -> (0 <= d)%Q ->
  let toMs := Waveform.toMs left width (Some d) in
  (0 <= toMs x1 /\ toMs x1 <= d * 1000)%Q /\
  ((x1 <= x2)%Q -> (toMs x1 <= toMs x2)%Q) /\
  ((x1 <= left)%Q -> (toMs x1 == 0)%Q) /\
  ((left + width <= x1)%Q -> (toMs x1 == d * 1000)%Q) /\
  ((left <= x1)%Q -> (x1 <= left + width)%Q ->
     (toMs x1 == d * 1000 * ((x1 - left) / width))%Q) /\
  Waveform.toMs left width None x1 = 0%Q.
Proof.
  intros Hw Hd. cbv zeta. unfold Waveform.toMs.
  assert (0 <= d * 1000)%Q as Hd' by lra.
  destruct (frac_range ((x1 - left) / width)) as [H0 H1].
  split; [|split; [|split; [|split; [|split]]]].
  - now apply toMs_range.
  - intros Hx. apply Qmult_le_l_weak; [exact Hd'|].
    apply frac_monotone. now apply ratio_monotone.
  - intros Hx.
    assert ((x1 - left) / width <= 0)%Q as Hr.
    { setoid_replace 0%Q with ((left - left) / width)%Q by (field; lra).
      now apply ratio_monotone. }
    rewrite (Q.max_l 0 _ Hr). rewrite Q.min_r by discriminate. ring.
  - intros Hx.
    assert (1 <= (x1 - left) / width)%Q as Hr.
    { setoid_replace 1%Q with ((left + width - left) / width)%Q by (field; lra).
      now apply ratio_monotone. }
    rewrite (Q.max_r 0 _) by lra. rewrite (Q.min_l 1 _ Hr). ring.
  - intros Hl Hr.
    assert (0 <= (x1 - left) / width)%Q as Hr0.
    { setoid_replace 0%Q with ((left - left) / width)%Q by (field; lra).
      now apply ratio_monotone. }
    assert ((x1 - left) / width <= 1)%Q as Hr1.
    { setoid_replace 1%Q with ((left + width - left) / width)%Q by (field; lra).
      now apply ratio_monotone. }
    rewrite (Q.max_r 0 _ Hr0), (Q.min_r 1 _ Hr1). reflexivity.
  - reflexivity.
Qed.

(** X15. Whatever the drag, the selection it commits lies inside the track:
    for a duration [d] that is not negative the committed pair [(a, b)] has
    [0 <= a <= b <= d * 1000], and the segment made of it starts at or after
    0 and ends at or before the end of the track. *)
Theorem committed_selection_in_track (left width d x0 x1 : Q) (xs : list Q) :
  (0 <= d)%Q ->
  exists a b,
    snd (Waveform.drag left width (Some d) x0 xs x1) = Some (a, b) /\
    (0 <= a /\ a <= b /\ b <= d * 1000)%Q /\
    0 <= Player.start_ms (Player.manual_segment a b) /\
    exists e, Player.end_ms (Player.manual_segment a b) = Some e /\
      Player.start_ms (Player.manual_segment a b) <= e <= Qfloor (d * 1000).
Proof.
  intros Hd.
  set (a0 := Waveform.toMs left width (Some d) x0).
  set (b0 := Waveform.toMs left width (Some d) x1).
  destruct (toMs_range left width d x0 Hd) as [Ha0 Ha1].
  destruct (toMs_range left width d x1 Hd) as [Hb0 Hb1].
  fold a0 in Ha0, Ha1. fold b0 in Hb0, Hb1.
  exists (Qmin a0 b0), (Qmax a0 b0).
  assert (0 <= Qmin a0 b0)%Q as H0 by now apply Q.min_glb.
  assert (Qmax a0 b0 <= d * 1000)%Q as H1 by now apply Q.max_lub.
  split; [|split; [|split]].
  - unfold Waveform.drag, Waveform.onPointerDown.
    destruct (moves_keep_anchor left width (Some d) xs a0 a0) as [b' E].
    fold a0. rewrite E. reflexivity.
  - repeat split; auto.
    apply Qle_trans with a0; [apply Q.le_min_l|apply Q.le_max_l].
  - cbn [Player.manual_segment Player.start_ms].
    change 0 with (Qfloor 0). now apply Qfloor_resp_le.
  - exists (Qfloor (Qmax a0 b0)). split; [reflexivity|].
    cbn [Player.manual_segment Player.start_ms]. split.
    + apply floor_min_le_floor_max.
    + now apply Qfloor_resp_le.
Qed.

(** ** Runs of pointer events *)

Lemma run_commits left width duration es : forall g,
  (List.length (snd (Waveform.run left width duration g es))
   <= Spec.count_presses es + (if Waveform.dragging g then 1 else 0))%nat /\
  (forall a b, In (a, b) (snd (Waveform.run left width duration g es)) ->
     (a <= b)%Q).
Proof.
  induction es as [|e es IH]; intros g.
  - split; [simpl; lia|intros a b []].
  - cbn [Waveform.run]. destruct e as [x|x|x]; cbn [Waveform.dispatch Spec.count_presses].
    + destruct (IH (Waveform.onPointerDown left width duration g x)) as [H1 H2].
      destruct (Waveform.run left width duration
                  (Waveform.onPointerDown left width duration g x) es)
        as [g' cs]. cbn [snd] in *. split; [|exact H2].
      cbn [Waveform.onPointerDown Waveform.dragging] in H1.
      destruct (Waveform.dragging g); lia.
    + destruct (IH (Waveform.onPointerMove left width duration g x)) as [H1 H2].
      destruct (Waveform.run left width duration
                  (Waveform.onPointerMove left width duration g x) es)
        as [g' cs]. cbn [snd] in *. split; [|exact H2].
      unfold Waveform.onPointerMove in H1.
      destruct (Waveform.dragging g) eqn:Ed; [|rewrite Ed in H1; exact H1].
      destruct (Waveform.sel g) as [[a0 b0]|]; [exact H1|].
      now rewrite Ed in H1.
    + unfold Waveform.onPointerUp.
      destruct (Waveform.dragging g) eqn:Ed.
      * destruct (Waveform.sel g) as [[a0 b0]|].
        -- destruct (IH (Waveform.mkGesture false
                      (Some (a0, Waveform.toMs left width duration x))))
             as [H1 H2].
           destruct (Waveform.run left width duration _ es) as [g' cs].
           cbn [snd Waveform.dragging] in *. split; [simpl; lia|].
           intros a b [[= <- <-]|Hin]; [|now apply H2].
           apply Qle_trans with a0; [apply Q.le_min_l|apply Q.le_max_l].
        -- destruct (IH g) as [H1 H2].
           destruct (Waveform.run left width duration g es) as [g' cs].
           cbn [snd] in *. rewrite Ed in H1. split; [lia|exact H2].
      * destruct (IH g) as [H1 H2].
        destruct (Waveform.run left width duration g es) as [g' cs].
        cbn [snd] in *. rewrite Ed in H1. split; [lia|exact H2].
Qed.

(** X16. In any run of pointer events that starts with no drag on, there
    are at most as many committed selections as presses, so moves and
    releases that follow no press commit nothing, and every committed pair
    is in order. *)
Theorem commits_need_presses (left width : Q) (duration : option Q)
  (es : list Waveform.Event) :
  let commits := snd (Waveform.run left width duration Waveform.idle es) in
  (List.length commits <= Spec.count_presses es)%nat /\
  (forall a b, In (a, b) commits -> (a <= b)%Q).
Proof.
  cbv zeta.
  destruct (run_commits left width duration es Waveform.idle) as [H1 H2].
  cbn [Waveform.idle Waveform.dragging] in H1. split; [lia|exact H2].
Qed.

(** ** The rendered window, again *)

Lemma visible_as_firstn {A} (items : list A) itemHeight height overscan scrollTop :
  0 <= scrollTop -> 0 < itemHeight -> 0 < height -> 0 <= overscan ->
  VirtualList.visible items itemHeight height (Some overscan) scrollTop
  = firstn (Z.to_nat (VirtualList.endIndex items itemHeight height (Some overscan) scrollTop
                      - VirtualList.startIndex itemHeight (Some overscan) scrollTop + 1))
           (skipn (Z.to_nat (VirtualList.startIndex itemHeight (Some overscan) scrollTop))
                  items).
Proof.
  intros Hs Hi Hh Ho.
  unfold VirtualList.visible, JS.slice, JS.clip_index.
  set (first := VirtualList.startIndex itemHeight (Some overscan) scrollTop).
  set (last := VirtualList.endIndex items itemHeight height (Some overscan) scrollTop).
  set (n := Z.of_nat (List.length items)).
  assert (0 <= first) as Hf by (unfold first, VirtualList.startIndex; lia).
  assert (0 <= (scrollTop + height) / itemHeight) as Hq
    by (apply Z.div_pos; lia).
  assert (-1 <= last <= n - 1) as Hl.
  { unfold last, VirtualList.endIndex, VirtualList.itemCount,
      VirtualList.overscan_or_default. fold n. lia. }
  destruct (Z.ltb_spec first 0); [lia|].
  destruct (Z.ltb_spec (last + 1) 0); [lia|].
  destruct (Z.le_gt_cases first n) as [Hle|Hgt].
  - f_equal; f_equal; lia.
  - rewrite !skipn_firstn_beyond; [reflexivity| |]; unfold n in *; lia.
Qed.

(** X17. For a scroll offset that is not negative, positive heights and an
    overscan that is not negative, the list renders exactly
    [max(0, endIndex - startIndex + 1)] rows, at most
    [floor(height / itemHeight) + 2 * overscan + 2] whatever the number of
    items, and rendered row [j] is the item at index [startIndex + j], an
    index of the list.  [startIndex] is never negative and [endIndex] lies
    between [-1] and the last index.  The two bounds themselves can lie
    outside the list: [endIndex] is [-1] for the empty list, and
    [startIndex] is beyond the last index for a scroll offset beyond the
    list; in both cases no row is rendered. *)
Theorem rendered_rows_bounded {A} (items : list A)
  (itemHeight height overscan scrollTop : Z) :
  0 <= scrollTop -> 0 < itemHeight -> 0 < height -> 0 <= overscan ->
  let n := Z.of_nat (List.length items) in
  let first := VirtualList.startIndex itemHeight (Some overscan) scrollTop in
  let last := VirtualList.endIndex items itemHeight height (Some overscan) scrollTop in
  let rows := VirtualList.visible items itemHeight height (Some overscan) scrollTop in
  Z.of_nat (List.length rows) = Z.max 0 (last - first + 1) /\
  Z.of_nat (List.length rows) <= height / itemHeight + 2 * overscan + 2 /\
  (forall j, (j < List.length rows)%nat ->
     0 <= first + Z.of_nat j < n /\
     nth_error rows j = nth_error items (Z.to_nat (first + Z.of_nat j))) /\
  0 <= first /\ -1 <= last <= n - 1 /\
  (n = 0 -> last = -1 /\ rows = []) /\
  (n <= first -> rows = []).
Proof.
  intros Hs Hi Hh Ho. cbv zeta.
  rewrite visible_as_firstn by assumption.
  set (first := VirtualList.startIndex itemHeight (Some overscan) scrollTop).
  set (last := VirtualList.endIndex items itemHeight height (Some overscan) scrollTop).
  pose proof (floor_div_bounds scrollTop itemHeight Hi) as H1.
  pose proof (floor_div_bounds (scrollTop + height) itemHeight Hi) as H2.
  pose proof (floor_div_bounds height itemHeight Hi) as H3.
  assert ((scrollTop + height) / itemHeight
          <= scrollTop / itemHeight + height / itemHeight + 1) as Hq by nia.
  assert (0 <= scrollTop / itemHeight) as Hq1 by (apply Z.div_pos; lia).
  assert (0 <= (scrollTop + height) / itemHeight) as Hq2 by (apply Z.div_pos; lia).
  assert (0 <= height / itemHeight) as Hqh by (apply Z.div_pos; lia).
  assert (first = Z.max 0 (scrollTop / itemHeight - overscan)) as Ef by reflexivity.
  assert (last = Z.min (Z.of_nat (List.length items) - 1)
                       ((scrollTop + height) / itemHeight + overscan)) as El
    by reflexivity.
  clearbody first last.
  assert (Z.of_nat (List.length
            (firstn (Z.to_nat (last - first + 1)) (skipn (Z.to_nat first) items)))
          = Z.max 0 (last - first + 1)) as Hlen
    by (rewrite length_firstn, length_skipn; lia).
  split; [exact Hlen|]. split; [lia|]. split; [|split; [lia|split; [lia|split]]].
  - intros j Hj. split; [lia|].
    rewrite nth_error_firstn.
    replace (j <? Z.to_nat (last - first + 1))%nat with true
      by (symmetry; apply Nat.ltb_lt; lia).
    rewrite nth_error_skipn. f_equal. lia.
  - intros Hn. split; [lia|].
    apply length_zero_iff_nil. lia.
  - intros Hn. apply length_zero_iff_nil. lia.
Qed.

(** X18. Virtualisation hides no row that is in view: an item whose row
    meets the viewport, that is [k * itemHeight <= scrollTop + height] and
    [scrollTop < (k + 1) * itemHeight], lies inside the window and is the
    rendered row number [k - startIndex]. *)
Theorem row_in_view_is_rendered {A} (items : list A)
  (itemHeight height overscan scrollTop k : Z) :
  0 <= scrollTop -> 0 < itemHeight -> 0 < height -> 0 <= overscan ->
  0 <= k < Z.of_nat (List.length items) ->
  k * itemHeight <= scrollTop + height -> scrollTop < (k + 1) * itemHeight ->
  let first := VirtualList.startIndex itemHeight (Some overscan) scrollTop in
  let last := VirtualList.endIndex items itemHeight height (Some overscan) scrollTop in
  first <= k <= last /\
  nth_error (VirtualList.visible items itemHeight height (Some overscan) scrollTop)
            (Z.to_nat (k - first))
  = nth_error items (Z.to_nat k).
Proof.
  intros Hs Hi Hh Ho Hk Hbot Htop. cbv zeta.
  rewrite visible_as_firstn by assumption.
  unfold VirtualList.startIndex, VirtualList.endIndex, VirtualList.itemCount,
    VirtualList.overscan_or_default. cbv beta iota.
  pose proof (floor_div_bounds scrollTop itemHeight Hi) as H1.
  pose proof (floor_div_bounds (scrollTop + height) itemHeight Hi) as H2.
  assert (scrollTop / itemHeight <= k) as Hq1 by nia.
  assert (k <= (scrollTop + height) / itemHeight) as Hq2 by nia.
  split; [lia|].
  rewrite nth_error_firstn.
  match goal with |- (if ?c then _ else _) = _ =>
    replace c with true by (symmetry; apply Nat.ltb_lt; lia) end.
  rewrite nth_error_skipn. f_equal. lia.
Qed.

(** ** The target of a programmatic scroll *)

Lemma inject_le a b : a <= b -> (inject_Z a <= inject_Z b)%Q.
Proof. intros H. rewrite <- Zle_Qle. exact H. Qed.

Lemma handle_after_first {A} (items : list A) itemHeight later :
  VirtualList.handle_after items itemHeight later
  = VirtualList.first_render items itemHeight.
Proof.
  unfold VirtualList.handle_after.
  generalize (VirtualList.first_render items itemHeight).
  induction later as [|p later IH]; intros h; [reflexivity|apply IH].
Qed.

(** X19. [scrollToIndex] works with the items of the first render, not
    with those on screen.  For a list first rendered with [items0] and
    rendered again with the lists [later] at the same item height, the
    target lies between 0 and the [maxScroll] of [items0], and it is 0 when
    [items0] is not higher than the viewport, an empty [items0] included.
    For an index of [items0], and a viewport at least one row high, the row
    lies wholly inside the viewport once the target is reached, with either
    alignment.  A row at an index from the length of [items0] on, which the
    list on screen may well hold, and whose lower edge lies below the first
    viewport height is not wholly in view at the target: a list that is
    first rendered empty is always scrolled to 0. *)
Theorem scroll_target_shows_item {A} (items0 : list A) (later : list (list A))
  (itemHeight clientHeight i : Z) (align : VirtualList.Align) :
  0 < itemHeight -> itemHeight <= clientHeight ->
  let h := VirtualList.handle_after items0 itemHeight
             (map (fun items => (items, itemHeight)) later) in
  let count0 := Z.of_nat (List.length items0) in
  let target := VirtualList.scrollToIndex h clientHeight i align in
  (0 <= target /\
   target <= inject_Z (VirtualList.maxScroll count0 itemHeight clientHeight))%Q /\
  (count0 * itemHeight <= clientHeight -> (target == 0)%Q) /\
  (0 <= i < count0 ->
   (target <= inject_Z (i * itemHeight) /\
    inject_Z (i * itemHeight) + inject_Z itemHeight
      <= target + inject_Z clientHeight)%Q) /\
  (count0 <= i -> clientHeight < (i + 1) * itemHeight ->
   ~ (inject_Z (i * itemHeight) + inject_Z itemHeight
      <= target + inject_Z clientHeight)%Q).
Proof.
  intros Hh HH. cbv zeta. rewrite handle_after_first.
  unfold VirtualList.scrollToIndex, VirtualList.first_render.
  cbn [VirtualList.h_count VirtualList.h_itemHeight].
  set (count := Z.of_nat (List.length items0)).
  unfold VirtualList.scrollTarget, VirtualList.clamp, VirtualList.maxScroll.
  set (M := Z.max 0 (count * itemHeight - clientHeight)).
  set (v := (inject_Z (i * itemHeight)
             - match align with
               | VirtualList.center =>
                   inject_Z clientHeight / 2 - inject_Z itemHeight / 2
               | VirtualList.start => 0
               end)%Q).
  assert (0 <= inject_Z M)%Q as HM by (apply (inject_le 0 M); lia).
  assert (0 < inject_Z itemHeight)%Q as Hh'
    by (rewrite (Zlt_Qlt 0 itemHeight) in Hh; exact Hh).
  pose proof (inject_le _ _ HH) as HH'.
  assert (0 <= Qmax 0 (Qmin (inject_Z M) v) /\
          Qmax 0 (Qmin (inject_Z M) v) <= inject_Z M)%Q as Hrange.
  { split; [apply Q.le_max_l|].
    apply Q.max_lub; [exact HM|apply Q.le_min_l]. }
  split; [exact Hrange|]. split; [|split].
  - intros Hsmall. assert (M = 0) as -> by lia.
    apply Qle_antisym; [|apply Q.le_max_l].
    apply Q.max_lub; [apply Qle_refl|apply Q.le_min_l].
  - intros Hi.
    assert (0 <= inject_Z (i * itemHeight))%Q as HI
      by (apply (inject_le 0); nia).
    assert (inject_Z (i * itemHeight) + inject_Z itemHeight
            <= inject_Z (count * itemHeight))%Q as HN.
    { rewrite <- inject_Z_plus. apply inject_le. nia. }
    assert (inject_Z (count * itemHeight) - inject_Z clientHeight
            <= inject_Z M)%Q as HMN.
    { unfold Qminus. rewrite <- inject_Z_opp, <- inject_Z_plus.
      apply inject_le. lia. }
    assert (inject_Z M == 0 \/
            inject_Z M == inject_Z (count * itemHeight) - inject_Z clientHeight)%Q
      as HMcase.
    { destruct (Z.max_spec 0 (count * itemHeight - clientHeight)) as [[_ E]|[_ E]];
        fold M in E; rewrite E.
      - right. unfold Qminus. now rewrite <- inject_Z_opp, <- inject_Z_plus.
      - now left. }
    assert (v <= inject_Z (i * itemHeight) /\
            inject_Z (i * itemHeight) + inject_Z itemHeight
              <= v + inject_Z clientHeight)%Q as [Hv1 Hv2].
    { unfold v, Qdiv. change (/ 2)%Q with (1 # 2)%Q.
      destruct align; split; lra. }
    clearbody v M.
    destruct (Q.min_spec (inject_Z M) v) as [[Hc Em]|[Hc Em]];
      destruct (Q.max_spec 0 (Qmin (inject_Z M) v)) as [[Hc' Ex]|[Hc' Ex]];
      rewrite Ex, ?Em; rewrite ?Em in Hc';
      destruct HMcase as [E0|E0]; split; lra.
  - intros Hi Hbelow Hin.
    destruct Hrange as [_ Hup].
    assert (inject_Z M + inject_Z clientHeight
            < inject_Z (i * itemHeight) + inject_Z itemHeight)%Q as Hlt.
    { rewrite <- !inject_Z_plus. rewrite <- Zlt_Qlt. unfold M. nia. }
    lra.
Qed.

(** ** Which samples the peak loop reads *)

Lemma firstn_plus {A} (l : list A) a b :
  firstn (a + b) l = (firstn a l ++ firstn b (skipn a l))%list.
Proof.
  revert l; induction a as [|a IH]; intros l; [reflexivity|].
  destruct l as [|x l]; simpl.
  - now rewrite firstn_nil.
  - now rewrite IH.
Qed.

Lemma concat_chunks {A} (l : list A) step k :
  List.concat (map (fun i => firstn step (skipn (i * step) l)) (seq 0 k))
  = firstn (k * step) l.
Proof.
  induction k as [|k IH]; [reflexivity|].
  rewrite seq_S, map_app, List.concat_app, IH. cbn [map List.concat Nat.add].
  rewrite app_nil_r. replace (S k * step)%nat with (k * step + step)%nat by lia.
  now rewrite firstn_plus.
Qed.

(** X20. The columns of the peak loop read the samples in order and without
    overlap: column [i] gives the running minimum and maximum of its chunk,
    and the chunks of columns 0 to [w - 1], one after the other, are the
    first [w * step] samples.  With at least [w] samples fewer than [w] of
    them, those at the end, are read by no column; with at most [w] samples
    every sample is read. *)
Theorem peak_chunks_are_a_prefix (ch : list Q) (w : Z) :
  0 < w ->
  let step := Waveform.step_of ch w in
  let n := Z.of_nat (List.length ch) in
  Waveform.peaks ch w
    = map (fun i => Spec.min_max_from (1, -1)%Q (Spec.chunk ch step (Z.of_nat i)))
          (seq 0 (Z.to_nat w)) /\
  List.concat (map (fun i => Spec.chunk ch step (Z.of_nat i)) (seq 0 (Z.to_nat w)))
    = firstn (Z.to_nat (w * step)) ch /\
  (w <= n -> 0 <= n - w * step < w) /\
  (n <= w -> firstn (Z.to_nat (w * step)) ch = ch).
Proof.
  intros Hw. cbv zeta.
  assert (1 <= Waveform.step_of ch w) as Hstep
    by (unfold Waveform.step_of; lia).
  split; [|split; [|split]].
  - unfold Waveform.peaks. apply map_ext. intros i.
    rewrite column_loop_fold by nia. unfold Spec.chunk.
    now rewrite Z.add_0_r.
  - replace (Z.to_nat (w * Waveform.step_of ch w))
      with (Z.to_nat w * Z.to_nat (Waveform.step_of ch w))%nat by nia.
    rewrite <- concat_chunks. f_equal. apply map_ext. intros i.
    unfold Spec.chunk. f_equal. f_equal. nia.
  - intros Hn. unfold Waveform.step_of.
    pose proof (floor_div_bounds (Z.of_nat (List.length ch)) w Hw).
    assert (1 <= Z.of_nat (List.length ch) / w) by (apply Z.div_le_lower_bound; lia).
    rewrite Z.max_r by lia. nia.
  - intros Hn. apply firstn_all2. nia.
Qed.

(** ** The object URL of the audio file *)

Lemma no_leak_from es : forall s,
  Blob.live s = Spec.olist (Blob.activeBlob s) ->
  (forall u, Blob.activeBlob s = Some u ->
     u <> EmptyString /\ ~ In u (Spec.created_urls es)) ->
  NoDup (Spec.created_urls es) -> ~ In EmptyString (Spec.created_urls es) ->
  Blob.live (fold_left Blob.handle es s)
  = Spec.olist (Blob.activeBlob (fold_left Blob.handle es s)) /\
  (forall u, Blob.activeBlob (fold_left Blob.handle es s) = Some u ->
     u <> EmptyString).
Proof.
  induction es as [|e es IH]; intros s Hl Ha Hnd Hne.
  - split; [exact Hl|]. intros u Hu. now apply Ha.
  - cbn [fold_left]. destruct e as [[name|] [url|]|code|]; cbn [Spec.created_urls] in *;
      try (apply IH; auto; fail).
    apply IH.
      * cbn [Blob.handle Blob.onAudioFile Blob.live Blob.activeBlob].
        destruct (Blob.activeBlob s) as [prev|] eqn:Ep.
        -- destruct (Ha prev eq_refl) as [Hp Hin].
           assert (prev <> url) as Hpu by (intros ->; apply Hin; now left).
           destruct prev as [|c r]; [congruence|]. cbn [JS.is_empty negb andb].
           replace (String.eqb (String c r) url) with false
             by (symmetry; now apply String.eqb_neq).
           rewrite Hl. cbn [negb Spec.olist Blob.revoke remove].
           destruct (string_dec (String c r) url); [congruence|].
           destruct (string_dec (String c r) (String c r)); [reflexivity|congruence].
        -- rewrite Hl. reflexivity.
      * cbn [Blob.handle Blob.onAudioFile Blob.activeBlob].
        intros u [= <-]. inversion Hnd; subst. split; [|assumption].
        intros ->. apply Hne. now left.
      * now inversion Hnd.
      * intros H. apply Hne. now right.
Qed.

(** X21. The first player leaks no object URL: when [createObjectURL]
    returns a new, non-empty URL every time, then after any run of uploads,
    also failed ones, and of playback events the only URL that is created
    and not revoked is the active one, and after the cleanup on unmount
    there is none. *)
Theorem object_urls_do_not_leak (es : list Blob.Event) :
  NoDup (Spec.created_urls es) -> ~ In EmptyString (Spec.created_urls es) ->
  Blob.live (Blob.run es) = Spec.olist (Blob.activeBlob (Blob.run es)) /\
  Blob.live (Blob.unmount (Blob.run es)) = [] /\
  Blob.activeBlob (Blob.unmount (Blob.run es)) = None.
Proof.
  intros Hnd Hne. unfold Blob.run.
  destruct (no_leak_from es Blob.initial) as [Hl Hn]; auto.
  { intros u [=]. }
  split; [exact Hl|]. unfold Blob.unmount.
  destruct (Blob.activeBlob (fold_left Blob.handle es Blob.initial))
    as [u|] eqn:Eu.
  - specialize (Hn u eq_refl). destruct u as [|c r]; [congruence|].
    cbn [JS.is_empty Blob.live Blob.activeBlob]. rewrite Hl.
    cbn [Spec.olist Blob.revoke remove].
    destruct (string_dec (String c r) (String c r)); [auto|congruence].
  - rewrite Hl, Eu. auto.
Qed.

(** ** The time label of a segment *)

Lemma in_range_nat (P : Z -> bool) n :
  forallb (fun k => P (Z.of_nat k)) (seq 0 n) = true ->
  forall z, 0 <= z < Z.of_nat n -> P z = true.
Proof.
  intros H z Hz. rewrite forallb_forall in H.
  specialize (H (Z.to_nat z)). rewrite Z2Nat.id in H by lia.
  apply H. apply in_seq. lia.
Qed.

Lemma seconds_padded sec :
  0 <= sec < 60 -> JS.padStart 2 "0" (JS.Z_to_string sec) = Spec.two_digits sec.
Proof.
  intros H. apply String.eqb_eq.
  apply (in_range_nat
           (fun z => String.eqb (JS.padStart 2 "0" (JS.Z_to_string z)) (Spec.two_digits z))
           60); [vm_compute; reflexivity|exact H].
Qed.

Lemma labels_read_back m sec :
  0 <= m < 100 -> 0 <= sec < 60 -> Spec.label_reads_back m sec = true.
Proof.
  intros Hm Hs.
  apply (in_range_nat (fun z => Spec.label_reads_back m z) 60); [|exact Hs].
  apply (in_range_nat
           (fun y => forallb (fun k => Spec.label_reads_back y (Z.of_nat k)) (seq 0 60))
           100); [vm_compute; reflexivity|exact Hm].
Qed.

(** X22. For a whole number of milliseconds that is not negative and
    below [2^53], [msToTime] gives the whole minutes, a colon and the
    seconds within the minute in exactly two digits.  Below 100 minutes the
    label, put in brackets, is a timestamp of the LRC parser that reads
    back as the time in whole seconds. *)
Theorem time_label_format (ms : Z) :
  0 <= ms < 2 ^ 53 ->
  Player.msToTime ms
    = JS.Z_to_string (ms / 60000) ++ ":" ++ Spec.two_digits ((ms / 1000) mod 60) /\
  (ms < 6000000 ->
   exists q, Lyrics.exec_times ("[" ++ Player.msToTime ms ++ "]") = [q] /\
             (q == inject_Z (ms / 1000))%Q).
Proof.
  intros Hms.
  assert (0 <= ms / 1000) as Hs by (apply Z.div_pos; lia).
  pose proof (Z.mod_pos_bound (ms / 1000) 60 ltac:(lia)) as Hsec.
  assert (Player.msToTime ms
          = JS.Z_to_string (ms / 60000) ++ ":" ++ Spec.two_digits ((ms / 1000) mod 60))
    as E.
  { unfold Player.msToTime. cbv zeta.
    rewrite Z.rem_mod_nonneg by lia.
    rewrite Z.div_div by lia. change (1000 * 60) with 60000.
    now rewrite seconds_padded. }
  split; [exact E|]. intros Hlt. rewrite E.
  assert (0 <= ms / 60000 < 100) as Hm.
  { split; [apply Z.div_pos; lia|apply Z.div_lt_upper_bound; lia]. }
  pose proof (labels_read_back _ _ Hm Hsec) as H.
  unfold Spec.label_reads_back in H.
  destruct (Lyrics.exec_times _) as [|q [|q' qs]]; try discriminate.
  exists q. split; [reflexivity|]. apply Qeq_bool_iff in H. rewrite H.
  assert (ms / 60000 = ms / 1000 / 60) as Hdd
    by (rewrite Z.div_div by lia; reflexivity).
  pose proof (Z.div_mod (ms / 1000) 60 ltac:(lia)) as Hdm.
  replace (ms / 60000 * 60 + (ms / 1000) mod 60) with (ms / 1000) by lia.
  reflexivity.
Qed.

(** ** The further statements at concrete inputs *)

Lemma three_lines_sorted : Sorted Spec.by_time Spec.three_lines.
Proof. repeat constructor; unfold Spec.by_time, Qle; simpl; lia. Defined.

Lemma lookup_monotone_witness :
  Sorted Spec.by_time Spec.three_lines /\ (1 <= 5)%Q /\
  Lyrics.currentIndex Spec.three_lines 1 = Some 0 /\
  Lyrics.currentIndex Spec.three_lines 5 = Some 1 /\ 0 <= 1.
Proof.
  assert (1 <= 5)%Q as H by (unfold Qle; simpl; lia).
  assert (Lyrics.currentIndex Spec.three_lines 1 = Some 0) as E1
    by (vm_compute; reflexivity).
  assert (Lyrics.currentIndex Spec.three_lines 5 = Some 1) as E2
    by (vm_compute; reflexivity).
  exact (conj three_lines_sorted (conj H (conj E1 (conj E2
           (lookup_monotone Spec.three_lines 1 5 0 1 three_lines_sorted H E1 E2))))).
Defined.

Lemma lookup_at_line_time_witness :
  Sorted Spec.by_time Spec.three_lines /\
  JS.index Spec.three_lines 1 = Some (Lyrics.mkLine 4 "b") /\
  exists j, Lyrics.currentIndex Spec.three_lines 4 = Some j /\ 1 <= j.
Proof.
  split; [exact three_lines_sorted|]. split; [reflexivity|].
  destruct (lookup_at_line_time Spec.three_lines 1 (Lyrics.mkLine 4 "b")
              three_lines_sorted eq_refl) as [j [l' [Hj [Hle _]]]].
  exists j. split; [exact Hj|exact Hle].
Defined.

Lemma forward_playback_witness :
  Sorted Spec.by_time Spec.three_lines /\ Sorted Qle [0; 1; 5; 9]%Q /\
  exists r calls,
    Lyrics.ticks Spec.three_lines [0; 1; 5; 9]%Q (-1) = Some (r, calls) /\
    StronglySorted Z.lt calls.
Proof.
  assert (Sorted Qle [0; 1; 5; 9]%Q) as Ht
    by (repeat constructor; unfold Qle; simpl; lia).
  split; [exact three_lines_sorted|]. split; [exact Ht|].
  destruct (forward_playback_announces_once Spec.three_lines [0; 1; 5; 9]%Q
              three_lines_sorted Ht) as [r [calls [E [Hc _]]]].
  exists r, calls. split; [exact E|exact Hc].
Defined.

Lemma parsed_text_witness :
  let l := nth 0 (Lyrics.parseLRC "[00:01.00]  x ") (Lyrics.mkLine 0 EmptyString) in
  In l (Lyrics.parseLRC "[00:01.00]  x ") /\
  Lyrics.text l <> EmptyString /\ JS.trim (Lyrics.text l) = Lyrics.text l.
Proof.
  cbv zeta.
  assert (In (nth 0 (Lyrics.parseLRC "[00:01.00]  x ") (Lyrics.mkLine 0 EmptyString))
             (Lyrics.parseLRC "[00:01.00]  x ")) as Hin
    by (vm_compute; left; reflexivity).
  exact (conj Hin (parsed_text_is_trimmed _ _ Hin)).
Defined.

Lemma parsed_time_witness :
  let l := nth 0 (Lyrics.parseLRC "[99:99.999] x") (Lyrics.mkLine 0 EmptyString) in
  In l (Lyrics.parseLRC "[99:99.999] x") /\
  (0 <= Lyrics.time l /\ Lyrics.time l < 6040)%Q.
Proof.
  cbv zeta.
  assert (In (nth 0 (Lyrics.parseLRC "[99:99.999] x") (Lyrics.mkLine 0 EmptyString))
             (Lyrics.parseLRC "[99:99.999] x")) as Hin
    by (vm_compute; left; reflexivity).
  exact (conj Hin (parsed_time_range _ _ Hin)).
Defined.

Lemma inferred_ends_witness :
  Sorted (fun a b => Player.start_ms a < Player.start_ms b) Spec.two_segments /\
  exists s' e,
    nth_error (Player.infer_ends Spec.two_segments) 0 = Some s' /\
    Player.end_ms s' = Some e /\ Player.start_ms s' <= e.
Proof.
  assert (Sorted (fun a b => Player.start_ms a < Player.start_ms b) Spec.two_segments)
    as Hs by (repeat constructor).
  split; [exact Hs|].
  destruct (inferred_ends_follow_starts Spec.two_segments 0
              (Player.mkSegment "s0" 0 None "a" None)
              (Player.mkSegment "s1" 4000 None "b" None) Hs eq_refl eq_refl)
    as [s' [e [H1 [H2 [H3 _]]]]].
  exists s', e. repeat split; assumption.
Defined.

Lemma manual_segment_position_witness :
  Sorted Spec.by_start Spec.two_segments /\
  Player.onWaveSelection 4000 5000 Spec.two_segments
  = (Spec.two_segments ++ [Player.manual_segment 4000 5000])%list.
Proof.
  assert (Sorted Spec.by_start Spec.two_segments) as Hs
    by (repeat constructor; unfold Spec.by_start; simpl; lia).
  split; [exact Hs|].
  exact (manual_segment_position Spec.two_segments 4000 5000 Hs).
Defined.

Lemma toMs_witness :
  (0 < 300)%Q /\ (0 <= 10)%Q /\
  (0 <= Waveform.toMs 0 300 (Some 10%Q) 150 /\
   Waveform.toMs 0 300 (Some 10%Q) 150 <= 10 * 1000)%Q.
Proof.
  assert (0 < 300)%Q as Hw by reflexivity.
  assert (0 <= 10)%Q as Hd by discriminate.
  exact (conj Hw (conj Hd (proj1 (toMs_clamped_linear 0 300 10 150 200 Hw Hd)))).
Defined.

Lemma committed_selection_witness :
  (0 <= 10)%Q /\
  exists a b,
    snd (Waveform.drag 0 300 (Some 10%Q) 400 [7%Q] (-5)) = Some (a, b) /\
    (0 <= a /\ a <= b /\ b <= 10 * 1000)%Q.
Proof.
  assert (0 <= 10)%Q as Hd by discriminate.
  split; [exact Hd|].
  destruct (committed_selection_in_track 0 300 10 400 (-5) [7%Q] Hd)
    as [a [b [E [H _]]]].
  exists a, b. split; [exact E|exact H].
Defined.

Lemma rendered_rows_witness :
  (0 <= 560 /\ 0 < 56 /\ 0 < 560 /\ 0 <= 5) /\
  List.length (VirtualList.visible (repeat tt 1000) 56 560 (Some 5) 560) = 21%nat /\
  Z.of_nat (List.length
              (VirtualList.visible (repeat tt 1000) 56 560 (Some 5) 560))
    <= 560 / 56 + 2 * 5 + 2.
Proof.
  split; [lia|]. split; [reflexivity|].
  pose proof (rendered_rows_bounded (repeat tt 1000) 56 560 5 560
                ltac:(lia) ltac:(lia) ltac:(lia) ltac:(lia)) as H.
  cbv zeta in H. exact (proj1 (proj2 H)).
Defined.

Lemma row_in_view_witness :
  (0 <= 12 < Z.of_nat (List.length (repeat tt 1000)) /\
   12 * 56 <= 560 + 560 /\ 560 < (12 + 1) * 56) /\
  VirtualList.startIndex 56 (Some 5) 560 <= 12
    <= VirtualList.endIndex (repeat tt 1000) 56 560 (Some 5) 560.
Proof.
  assert (0 <= 12 < Z.of_nat (List.length (repeat tt 1000))) as Hk
    by (rewrite repeat_length; lia).
  split; [split; [exact Hk|lia]|].
  exact (proj1 (row_in_view_is_rendered (repeat tt 1000) 56 560 5 560 12
                  ltac:(lia) ltac:(lia) ltac:(lia) ltac:(lia) Hk
                  ltac:(lia) ltac:(lia))).
Defined.

Lemma scroll_target_witness :
  let h := VirtualList.handle_after (@nil unit) 56
             (map (fun items => (items, 56)) [repeat tt 1000]) in
  let target := VirtualList.scrollToIndex h 640 20 VirtualList.center in
  (0 < 56 /\ 56 <= 640 /\ 0 <= 20 /\ 640 < (20 + 1) * 56) /\
  (target == 0)%Q /\
  ~ (inject_Z (20 * 56) + inject_Z 56 <= target + inject_Z 640)%Q.
Proof.
  cbv zeta. split; [lia|].
  pose proof (scroll_target_shows_item (@nil unit) [repeat tt 1000] 56 640 20
                VirtualList.center ltac:(lia) ltac:(lia)) as H.
  cbv zeta in H. destruct H as [_ [H0 [_ Hout]]].
  split; [apply H0; simpl; lia|apply Hout; simpl; lia].
Defined.

Lemma peak_chunks_witness :
  let ch := [0.1; 0.2; -0.3; 0.4; 0.5]%Q in
  0 < 2 /\
  List.concat (map (fun i => Spec.chunk ch (Waveform.step_of ch 2) (Z.of_nat i))
                   (seq 0 (Z.to_nat 2)))
  = firstn (Z.to_nat (2 * Waveform.step_of ch 2)) ch.
Proof.
  cbv zeta. split; [lia|].
  exact (proj1 (proj2 (peak_chunks_are_a_prefix
                         [0.1; 0.2; -0.3; 0.4; 0.5]%Q 2 ltac:(lia)))).
Defined.

Lemma object_urls_witness :
  NoDup (Spec.created_urls Spec.two_uploads) /\
  ~ In EmptyString (Spec.created_urls Spec.two_uploads) /\
  Blob.live (Blob.run Spec.two_uploads) = ["blob:2"] /\
  Blob.live (Blob.unmount (Blob.run Spec.two_uploads)) = [].
Proof.
  assert (NoDup (Spec.created_urls Spec.two_uploads)) as Hnd.
  { repeat constructor; cbn; intuition discriminate. }
  assert (~ In EmptyString (Spec.created_urls Spec.two_uploads)) as Hne
    by (cbn; intuition discriminate).
  split; [exact Hnd|]. split; [exact Hne|].
  destruct (object_urls_do_not_leak Spec.two_uploads Hnd Hne) as [H1 [H2 _]].
  split; [exact H1|exact H2].
Defined.

Lemma time_label_witness :
  0 <= 83500 < 2 ^ 53 /\
  Player.msToTime 83500
    = JS.Z_to_string (83500 / 60000) ++ ":" ++ Spec.two_digits ((83500 / 1000) mod 60).
Proof.
  split; [lia|].
  exact (proj1 (time_label_format 83500 ltac:(lia))).
Defined.
